(** * json_keyquotes_convert: the key-quote and control-character passes

    A shallow embedding of [src/src/json_key_quote_utils.rs] and of the
    builder of [src/src/lib.rs].

    Rust strings are sequences of Unicode scalar values; a text is modelled
    as the list of their code points.  The [regex] crate is used with its
    default (Unicode, leftmost-first) semantics: the match it reports, and the
    spans of its capture groups, are those of a backtracking matcher that
    tries the alternatives of each operator in priority order, at the
    leftmost start position where a match exists.  That matcher is written
    below in continuation-passing style.  [str::replacen] with count 1 and
    [str::replace] are modelled on code point lists. *)

From Stdlib Require Import List NArith Arith Lia Bool String Ascii.
Import ListNotations.

(** [length] is the list length throughout (not the string one). *)
Abbreviation length := List.length (only parsing).

Open Scope N_scope.

(** ** Characters and texts *)

Definition char := N.
Definition text := list char.

(** Code points used by name. *)
Definition c_tab : char := 9.
Definition c_lf : char := 10.
Definition c_cr : char := 13.
Definition c_dq : char := 34.   (* double quote *)
Definition c_sq : char := 39.   (* single quote *)
Definition c_colon : char := 58.
Definition c_bslash : char := 92.
Definition c_lbrace : char := 123.
Definition c_lbrack : char := 91.
Definition c_comma : char := 44.

(** Literal texts are written as Rocq strings where four ASCII characters
    stand for characters that cannot appear in a Rocq string literal
    without escaping: [@] is a double quote, [#] a line feed, [%] a
    carriage return and [^] a tab.  Every other character is itself. *)
Definition lit_char (a : ascii) : char :=
  match a with
  | "@"%char => c_dq
  | "#"%char => c_lf
  | "%"%char => c_cr
  | "^"%char => c_tab
  | _ => N.of_nat (nat_of_ascii a)
  end.

Fixpoint lit (s : string) : text :=
  match s with
  | EmptyString => []
  | String a s' => lit_char a :: lit s'
  end.

(** ** Character classes of the patterns *)

Definition in_range (lo hi c : char) : bool := (lo <=? c) && (c <=? hi).

(** [\s]: the Unicode White_Space property. *)
Definition is_space (c : char) : bool :=
  in_range 9 13 c || (c =? 32) || (c =? 133) || (c =? 160) || (c =? 5760)
  || in_range 8192 8202 c || (c =? 8232) || (c =? 8233) || (c =? 8239)
  || (c =? 8287) || (c =? 12288).

(** [\d]: the Unicode general category Nd. *)
Definition nd_ranges : list (N * N) :=
  [(48, 57); (1632, 1641); (1776, 1785); (1984, 1993); (2406, 2415);
   (2534, 2543); (2662, 2671); (2790, 2799); (2918, 2927); (3046, 3055);
   (3174, 3183); (3302, 3311); (3430, 3439); (3558, 3567); (3664, 3673);
   (3792, 3801); (3872, 3881); (4160, 4169); (4240, 4249); (6112, 6121);
   (6160, 6169); (6470, 6479); (6608, 6617); (6784, 6793); (6800, 6809);
   (6992, 7001); (7088, 7097); (7232, 7241); (7248, 7257); (42528, 42537);
   (43216, 43225); (43264, 43273); (43472, 43481); (43504, 43513);
   (43600, 43609); (44016, 44025); (65296, 65305); (66720, 66729);
   (68912, 68921); (69734, 69743); (69872, 69881); (69942, 69951);
   (70096, 70105); (70384, 70393); (70736, 70745); (70864, 70873);
   (71248, 71257); (71360, 71369); (71472, 71481); (71904, 71913);
   (72016, 72025); (72784, 72793); (73040, 73049); (73120, 73129);
   (92768, 92777); (92864, 92873); (93008, 93017); (120782, 120831);
   (123200, 123209); (123632, 123641); (125264, 125273); (130032, 130041)].

Definition is_digit (c : char) : bool :=
  existsb (fun '(lo, hi) => in_range lo hi c) nd_ranges.

(** The punctuation of [SUPPORTED_KEY_CHARS_REGEX_STR]:
    backtick, tilde, ! @ # $ % (U+20AC euro sign) ^ & * ( ) - _ = + backslash
    | ; double quote, single quote, . < > / ? *)
Definition key_punct : list char :=
  [96; 126; 33; 64; 35; 36; 37; 8364; 94; 38; 42; 40; 41; 45; 95; 61; 43;
   92; 124; 59; 34; 39; 46; 60; 62; 47; 63].

(** The class of [SUPPORTED_KEY_CHARS_REGEX_STR]: ASCII letters and digits,
    the punctuation above and [\s]. *)
Definition SUPPORTED_KEY_CHAR (c : char) : bool :=
  in_range 65 90 c || in_range 97 122 c || in_range 48 57 c
  || existsb (N.eqb c) key_punct || is_space c.

(** [[^ dq sq]]: neither quote character *)
Definition not_quote (c : char) : bool := negb (c =? c_dq) && negb (c =? c_sq).
(** [[\s\S]] *)
Definition any_char (c : char) : bool := true.
(** [.] (no [s] flag: everything but a line feed) *)
Definition dot_char (c : char) : bool := negb (c =? c_lf).
(** [[\[,{]] and [[{\[,]] *)
Definition open_delim (c : char) : bool := (c =? c_lbrack) || (c =? c_comma) || (c =? c_lbrace).
(** [[{\[]] *)
Definition obj_open (c : char) : bool := (c =? c_lbrace) || (c =? c_lbrack).
(** [[\d\-\.]] *)
Definition num_start (c : char) : bool := is_digit c || (c =? 45) || (c =? 46).
(** [[^ q \\]]: neither the quote [q] nor a backslash *)
Definition not_q_bs (q : char) (c : char) : bool := negb (c =? q) && negb (c =? c_bslash).

(** ** A backtracking matcher with the regex crate's leftmost-first semantics *)

Inductive regex : Type :=
| RClass (p : char -> bool)            (* one character of a class *)
| RSeq (r1 r2 : regex)                 (* concatenation *)
| RAlt (r1 r2 : regex)                 (* [r1|r2], [r1] preferred *)
| RStar (greedy : bool) (r : regex)    (* [r*] when greedy, [r*?] when lazy *)
| RGroup (n : nat) (r : regex).        (* capture group number [n] *)

Infix "@@" := RSeq (at level 60, right associativity).

Definition RChar (c : char) : regex := RClass (N.eqb c).

Fixpoint RWord (w : text) : regex :=
  match w with
  | [] => RStar false (RClass (fun _ => false))   (* never used empty *)
  | [c] => RChar c
  | c :: w' => RChar c @@ RWord w'
  end.

(** Capture slots: the most recent binding of a group number wins. *)
Definition caps := list (nat * (nat * nat)).

Fixpoint cap_get (n : nat) (cs : caps) : option (nat * nat) :=
  match cs with
  | [] => None
  | (m, sp) :: cs' => if Nat.eqb n m then Some sp else cap_get n cs'
  end.

(** A continuation receives the position reached, the rest of the input
    and the capture slots. *)
Definition cont := nat -> text -> caps -> option (nat * caps).
Definition matcher := nat -> text -> caps -> cont -> option (nat * caps).

(** Iterations of a star.  [fuel] bounds the number of further iterations;
    an iteration that consumes nothing ends the loop (every starred
    sub-pattern of this program consumes at least one character). *)
Fixpoint star_loop (m : matcher) (greedy : bool) (fuel : nat)
    (pos : nat) (s : text) (cs : caps) (k : cont) : option (nat * caps) :=
  match fuel with
  | O => k pos s cs
  | S f =>
      let again := fun (_ : unit) =>
        m pos s cs (fun pos' s' cs' =>
          if Nat.ltb pos pos' then star_loop m greedy f pos' s' cs' k else None) in
      if greedy then
        match again tt with Some x => Some x | None => k pos s cs end
      else
        match k pos s cs with Some x => Some x | None => again tt end
  end.

Fixpoint mtch (r : regex) (pos : nat) (s : text) (cs : caps) (k : cont)
    {struct r} : option (nat * caps) :=
  match r with
  | RClass p =>
      match s with
      | c :: s' => if p c then k (S pos) s' cs else None
      | [] => None
      end
  | RSeq r1 r2 => mtch r1 pos s cs (fun pos' s' cs' => mtch r2 pos' s' cs' k)
  | RAlt r1 r2 =>
      match mtch r1 pos s cs k with
      | Some x => Some x
      | None => mtch r2 pos s cs k
      end
  | RStar g r1 => star_loop (mtch r1) g (List.length s) pos s cs k
  | RGroup n r1 =>
      mtch r1 pos s cs (fun pos' s' cs' => k pos' s' ((n, (pos, pos')) :: cs'))
  end.

(** The first match starting at [pos] or later; [s] is the input from
    [pos] on.  Result: start, end and capture slots. *)
Fixpoint search_from (r : regex) (pos : nat) (s : text) : option (nat * nat * caps) :=
  match mtch r pos s [] (fun e _ cs => Some (e, cs)) with
  | Some (e, cs) => Some (pos, e, cs)
  | None =>
      match s with
      | [] => None
      | _ :: s' => search_from r (S pos) s'
      end
  end.

(** [Regex::captures_iter]: successive non-overlapping matches, the next
    search starting where the previous match ended. *)
Fixpoint matches_from (fuel : nat) (r : regex) (pos : nat) (s : text)
    : list (nat * nat * caps) :=
  match fuel with
  | O => []
  | S f =>
      match search_from r pos s with
      | None => []
      | Some (st, e, cs) =>
          let nx := if Nat.ltb st e then e else S e in
          (st, e, cs) :: matches_from f r nx (skipn (nx - pos)%nat s)
      end
  end.

Definition captures_iter (r : regex) (t : text) : list (nat * nat * caps) :=
  matches_from (S (List.length t)) r 0 t.

Definition slice (t : text) (a b : nat) : text := firstn (b - a)%nat (skipn a t).

(** [caps.name(..)] / [caps.get(..)]: the text of a group, if it took part. *)
Definition group_text (t : text) (cs : caps) (n : nat) : option text :=
  match cap_get n cs with
  | Some (a, b) => Some (slice t a b)
  | None => None
  end.

(** Replacement templates such as ["$before$key$after"]: group references
    and literal texts.  A group that took no part expands to nothing. *)
Inductive piece : Type :=
| TGroup (n : nat)
| TLit (l : text).

Definition expand (t : text) (cs : caps) (tmpl : list piece) : text :=
  flat_map (fun p => match p with
                     | TGroup n => match group_text t cs n with Some g => g | None => [] end
                     | TLit l => l
                     end) tmpl.

(** [Regex::replace_all]. *)
Fixpoint replace_matches (t : text) (tmpl : list piece)
    (ms : list (nat * nat * caps)) (last : nat) : text :=
  match ms with
  | [] => skipn last t
  | (st, e, cs) :: ms' =>
      slice t last st ++ expand t cs tmpl ++ replace_matches t tmpl ms' e
  end.

Definition replace_all (r : regex) (t : text) (tmpl : list piece) : text :=
  replace_matches t tmpl (captures_iter r t) 0.

(** ** [str::replacen(pat, to, 1)] and [str::replace(pat, to)] *)

Fixpoint is_prefix (p s : text) : bool :=
  match p, s with
  | [], _ => true
  | a :: p', b :: s' => (a =? b) && is_prefix p' s'
  | _ :: _, [] => false
  end.

Fixpoint find_first (p s : text) : option nat :=
  if is_prefix p s then Some O
  else match s with
       | [] => None
       | _ :: s' => option_map S (find_first p s')
       end.

Definition replacen1 (s pat to : text) : text :=
  match find_first pat s with
  | Some i => firstn i s ++ to ++ skipn (i + List.length pat)%nat s
  | None => s
  end.

Fixpoint replace_go (fuel : nat) (pat to s : text) : text :=
  match fuel with
  | O => s
  | S f =>
      match s with
      | [] => []
      | c :: s' =>
          if is_prefix pat s then to ++ replace_go f pat to (skipn (List.length pat) s)
          else c :: replace_go f pat to s'
      end
  end.

Definition str_replace (s pat to : text) : text :=
  match pat with
  | [] => to ++ flat_map (fun c => c :: to) s
  | _ :: _ => replace_go (List.length s) pat to s
  end.

(** ** [Quotes] (lib.rs) *)

Inductive Quotes : Type := DoubleQuote | SingleQuote.

Definition as_str (q : Quotes) : text :=
  match q with
  | DoubleQuote => [c_dq]
  | SingleQuote => [c_sq]
  end.

Definition Quotes_default : Quotes := DoubleQuote.

(** The character of [as_str]. *)
Definition quote_char (q : Quotes) : char :=
  match q with DoubleQuote => c_dq | SingleQuote => c_sq end.

(** ** The patterns of json_key_quote_utils.rs

    In the comments, [K] is the class of [SUPPORTED_KEY_CHARS_REGEX_STR]
    and [DQ], [SQ] stand for the double and the single quote. *)

(** [[SUPPORTED_KEY_CHARS]*?[^DQ SQ]], the key of most patterns *)
Definition key_chars_lazy : regex := RStar false (RClass SUPPORTED_KEY_CHAR).
Definition key_pat : regex := key_chars_lazy @@ RClass not_quote.
(** [\s*?] and [[\s]*] *)
Definition ws_lazy : regex := RStar false (RClass is_space).
Definition ws_greedy : regex := RStar true (RClass is_space).
Definition colon : regex := RChar c_colon.
(** [q[\s\S]*?q] *)
Definition quoted_lazy (q : char) : regex :=
  RChar q @@ RStar false (RClass any_char) @@ RChar q.
(** [(?:null|true|false)] *)
Definition null_bool : regex :=
  RAlt (RWord (lit "null")) (RAlt (RWord (lit "true")) (RWord (lit "false"))).

(** json_add_key_quotes.  Group 1 is [prevchar_key] or [before], 2 [key],
    3 [val] or [after]; in the object pattern 1 is [key] and 2 [val]. *)

(** [(?P<prevchar_key>[^DQ SQ][\s]* )(?P<key>K*?[^DQ SQ])(?P<val>:\s*?q[\s\S]*?q)] *)
Definition add_string_val_regex (q : char) : regex :=
  RGroup 1 (RClass not_quote @@ ws_greedy) @@ RGroup 2 key_pat
  @@ RGroup 3 (colon @@ ws_lazy @@ quoted_lazy q).

(** [(?P<key>K*?[^DQ SQ])(?P<val>:\s*?[{\[])] *)
Definition add_object_val_regex : regex :=
  RGroup 1 key_pat @@ RGroup 2 (colon @@ ws_lazy @@ RClass obj_open).

(** [(?P<before>[\[,{]\s*?)(?P<key>K*?[^DQ SQ])(?P<after>:\s*?[\d\-\.])] *)
Definition add_number_val_regex : regex :=
  RGroup 1 (RClass open_delim @@ ws_lazy) @@ RGroup 2 key_pat
  @@ RGroup 3 (colon @@ ws_lazy @@ RClass num_start).

(** [(?P<before>[\[,{]\s*?)(?P<key>K*?[^DQ SQ])(?P<after>:\s*?(?:null|true|false))] *)
Definition add_null_bools_val_regex : regex :=
  RGroup 1 (RClass open_delim @@ ws_lazy) @@ RGroup 2 key_pat
  @@ RGroup 3 (colon @@ ws_lazy @@ null_bool).

(** ["$prevchar_key" + q + "$key" + q + "$val"] and the like *)
Definition tmpl_quote_middle (q : Quotes) : list piece :=
  [TGroup 1; TLit (as_str q); TGroup 2; TLit (as_str q); TGroup 3].
(** [q + "$key" + q + "$val"] *)
Definition tmpl_quote_first (q : Quotes) : list piece :=
  [TLit (as_str q); TGroup 1; TLit (as_str q); TGroup 2].

Definition json_add_key_quotes (json : text) (quote_type : Quotes) : text :=
  let json_single_quoted_string_passed :=
    replace_all (add_string_val_regex c_sq) json (tmpl_quote_middle quote_type) in
  let json_double_quoted_string_passed :=
    replace_all (add_string_val_regex c_dq) json_single_quoted_string_passed
      (tmpl_quote_middle quote_type) in
  let json_object_passed :=
    replace_all add_object_val_regex json_double_quoted_string_passed
      (tmpl_quote_first quote_type) in
  let json_number_passed :=
    replace_all add_number_val_regex json_object_passed (tmpl_quote_middle quote_type) in
  let json_null_bools_passed :=
    replace_all add_null_bools_val_regex json_number_passed (tmpl_quote_middle quote_type) in
  json_null_bools_passed.

(** json_remove_key_quotes:
    [(?P<before>[{\[,][\s]* )q(?P<key>K*?)q(?P<after>\s*?:)] *)
Definition remove_quotes_regex (q : char) : regex :=
  RGroup 1 (RClass open_delim @@ ws_greedy) @@ RChar q @@ RGroup 2 key_chars_lazy
  @@ RChar q @@ RGroup 3 (ws_lazy @@ colon).

(** ["$before$key$after"] *)
Definition tmpl_unquote : list piece := [TGroup 1; TGroup 2; TGroup 3].

Definition json_remove_key_quotes (json : text) : text :=
  let json_single_quotes_passed := replace_all (remove_quotes_regex c_sq) json tmpl_unquote in
  let json_double_quotes_passed :=
    replace_all (remove_quotes_regex c_dq) json_single_quotes_passed tmpl_unquote in
  json_double_quotes_passed.

(** ** json_escape_ctrlchars and json_unescape_ctrlchars

    Both functions loop over [captures_iter] on a snapshot of the text and,
    for each match, rewrite the FIRST occurrence of the captured text in the
    current text with [str::replacen(.., 1)].  [cap.name("key").unwrap()]
    and [&cap[1]] panic when the group took no part in the match: the
    passes return [None] there. *)

Definition obind {A B : Type} (o : option A) (f : A -> option B) : option B :=
  match o with Some a => f a | None => None end.

(** One line of a loop body:
    [new_json = new_json.replacen(cap_match, &f(cap_match), 1)]. *)
Definition apply_lines (lines : list (text -> text)) (cap : text) (j : text) : text :=
  fold_left (fun j' f => replacen1 j' cap (f cap)) lines j.

(** [for cap in re.captures_iter(&new_json.clone()) { .. }] on group [g]. *)
Definition capture_pass (r : regex) (g : nat) (lines : list (text -> text))
    (json : text) : option text :=
  fold_left
    (fun acc '(_, _, cs) =>
       obind acc (fun new_json =>
         obind (group_text json cs g) (fun cap_match =>
           Some (apply_lines lines cap_match new_json))))
    (captures_iter r json) (Some json).

(** Passes run in sequence, each on the result of the previous one. *)
Definition run_passes (ps : list (text -> option text)) (json : text) : option text :=
  fold_left (fun acc p => obind acc p) ps (Some json).

Definition bs_r : text := [c_bslash; 114].   (* the two characters \r *)
Definition bs_n : text := [c_bslash; 110].   (* \n *)
Definition bs_t : text := [c_bslash; 116].   (* \t *)

(** The key patterns of the escaper (the key between quotes [kq]). *)

(** [(?P<prevchar_key>[^DQ SQ][\s]* )kq(?P<key>K*?[^DQ SQ])kq(?P<val>\s*?:\s*?vq[\s\S]*?vq)] *)
Definition esc_string_key_regex (kq vq : char) : regex :=
  RGroup 1 (RClass not_quote @@ ws_greedy) @@ RChar kq @@ RGroup 2 key_pat
  @@ RChar kq @@ RGroup 3 (ws_lazy @@ colon @@ ws_lazy @@ quoted_lazy vq).

(** [kq(?P<key>K*?[^DQ SQ])kq(?P<val>\s*?:\s*?[{\[])] *)
Definition esc_object_key_regex (kq : char) : regex :=
  RChar kq @@ RGroup 1 key_pat @@ RChar kq
  @@ RGroup 2 (ws_lazy @@ colon @@ ws_lazy @@ RClass obj_open).

(** [(?P<before>[\[,{]\s*?)kq(?P<key>K*?[^DQ SQ])kq(?P<after>\s*?:\s*?[\d\-\.])] *)
Definition esc_number_key_regex (kq : char) : regex :=
  RGroup 1 (RClass open_delim @@ ws_lazy) @@ RChar kq @@ RGroup 2 key_pat
  @@ RChar kq @@ RGroup 3 (ws_lazy @@ colon @@ ws_lazy @@ RClass num_start).

(** [(?P<before>[\[,{]\s*?)kq(?P<key>K*?[^DQ SQ])kq(?P<after>\s*?:\s*?(?:null|true|false))] *)
Definition esc_null_boolean_key_regex (kq : char) : regex :=
  RGroup 1 (RClass open_delim @@ ws_lazy) @@ RChar kq @@ RGroup 2 key_pat
  @@ RChar kq @@ RGroup 3 (ws_lazy @@ colon @@ ws_lazy @@ null_bool).

(** [:[\s]*?q((?:[^q\\]|\\.)* )q], the string values of both functions *)
Definition string_value_regex (q : char) : regex :=
  colon @@ ws_lazy @@ RChar q
  @@ RGroup 1 (RStar true (RAlt (RClass (not_q_bs q)) (RChar c_bslash @@ RClass dot_char)))
  @@ RChar q.

(** Loop bodies of the escaper: keys lose their control characters
    (the tab line is [cap_match.replace("\t", "").replace("\t", "")]),
    values get them escaped. *)
Definition strip_ctrl_lines : list (text -> text) :=
  [fun k => str_replace k [c_lf] [];
   fun k => str_replace k [c_cr] [];
   fun k => str_replace (str_replace k [c_tab] []) [c_tab] []].

(** The double-quoted key with double-quoted value loop has the tab line twice. *)
Definition strip_ctrl_lines_dq_dq : list (text -> text) :=
  strip_ctrl_lines ++ [fun k => str_replace (str_replace k [c_tab] []) [c_tab] []].

Definition escape_value_lines : list (text -> text) :=
  [fun v => str_replace v [c_cr] bs_r;
   fun v => str_replace v [c_lf] bs_n;
   fun v => str_replace v [c_tab] bs_t].

(** One iteration of [for _n in 0..2]. *)
Definition escape_iteration : text -> option text :=
  run_passes
    [capture_pass (esc_string_key_regex c_sq c_sq) 2 strip_ctrl_lines;
     capture_pass (esc_string_key_regex c_dq c_sq) 2 strip_ctrl_lines;
     capture_pass (esc_string_key_regex c_sq c_dq) 2 strip_ctrl_lines;
     capture_pass (esc_string_key_regex c_dq c_dq) 2 strip_ctrl_lines_dq_dq;
     capture_pass (esc_object_key_regex c_sq) 1 strip_ctrl_lines;
     capture_pass (esc_object_key_regex c_dq) 1 strip_ctrl_lines;
     capture_pass (esc_number_key_regex c_sq) 2 strip_ctrl_lines;
     capture_pass (esc_number_key_regex c_dq) 2 strip_ctrl_lines;
     capture_pass (esc_null_boolean_key_regex c_sq) 2 strip_ctrl_lines;
     capture_pass (esc_null_boolean_key_regex c_dq) 2 strip_ctrl_lines;
     capture_pass (string_value_regex c_sq) 1 escape_value_lines;
     capture_pass (string_value_regex c_dq) 1 escape_value_lines].

(** [None] stands for a panic. *)
Definition json_escape_ctrlchars (json : text) : option text :=
  run_passes [escape_iteration; escape_iteration] json.

(** The key patterns of the unescaper (bare or quoted keys alike). *)

(** [(?P<prevchar_key>[^DQ SQ][\s]* )(?P<key>K*?[^DQ SQ])(?P<val>\s*?:\s*?vq[\s\S]*?vq)] *)
Definition unesc_string_key_regex (vq : char) : regex :=
  RGroup 1 (RClass not_quote @@ ws_greedy) @@ RGroup 2 key_pat
  @@ RGroup 3 (ws_lazy @@ colon @@ ws_lazy @@ quoted_lazy vq).

(** [(?P<key>K*?[^DQ SQ])(?P<val>\s*?:\s*?[{\[])] *)
Definition unesc_object_key_regex : regex :=
  RGroup 1 key_pat @@ RGroup 2 (ws_lazy @@ colon @@ ws_lazy @@ RClass obj_open).

(** [(?P<before>[\[,{]\s*?)(?P<key>K*?[^DQ SQ])(?P<after>\s*?:\s*?[\d\-\.])] *)
Definition unesc_number_key_regex : regex :=
  RGroup 1 (RClass open_delim @@ ws_lazy) @@ RGroup 2 key_pat
  @@ RGroup 3 (ws_lazy @@ colon @@ ws_lazy @@ RClass num_start).

(** [(?P<before>[\[,{]\s*?)(?P<key>K*?[^DQ SQ])(?P<after>\s*?:\s*?(?:null|true|false))] *)
Definition unesc_null_boolean_key_regex : regex :=
  RGroup 1 (RClass open_delim @@ ws_lazy) @@ RGroup 2 key_pat
  @@ RGroup 3 (ws_lazy @@ colon @@ ws_lazy @@ null_bool).

Definition strip_escape_lines : list (text -> text) :=
  [fun k => str_replace k bs_r [];
   fun k => str_replace k bs_n [];
   fun k => str_replace k bs_t []].

Definition unescape_value_lines : list (text -> text) :=
  [fun v => str_replace v bs_r [c_cr];
   fun v => str_replace v bs_n [c_lf];
   fun v => str_replace v bs_t [c_tab]].

Definition unescape_iteration : text -> option text :=
  run_passes
    [capture_pass (unesc_string_key_regex c_sq) 2 strip_escape_lines;
     capture_pass (unesc_string_key_regex c_dq) 2 strip_escape_lines;
     capture_pass unesc_object_key_regex 1 strip_escape_lines;
     capture_pass unesc_number_key_regex 2 strip_escape_lines;
     capture_pass unesc_null_boolean_key_regex 2 strip_escape_lines;
     capture_pass (string_value_regex c_sq) 1 unescape_value_lines;
     capture_pass (string_value_regex c_dq) 1 unescape_value_lines].

Definition json_unescape_ctrlchars (json : text) : option text :=
  run_passes [unescape_iteration; unescape_iteration] json.

(** ** JsonKeyQuoteConverter (lib.rs) *)

Record JsonKeyQuoteConverter : Type := {
  conv_json : text;
  conv_quote_type : Quotes
}.

Definition converter_new (json : text) (quote_type : Quotes) : JsonKeyQuoteConverter :=
  {| conv_json := json; conv_quote_type := quote_type |}.

Definition converter_add_key_quotes (self : JsonKeyQuoteConverter) : JsonKeyQuoteConverter :=
  {| conv_json := json_add_key_quotes (conv_json self) (conv_quote_type self);
     conv_quote_type := conv_quote_type self |}.

Definition converter_remove_key_quotes (self : JsonKeyQuoteConverter) : JsonKeyQuoteConverter :=
  {| conv_json := json_remove_key_quotes (conv_json self);
     conv_quote_type := conv_quote_type self |}.

(** The two escaping methods inherit the (unreachable) panics of the core
    functions, hence the [option]. *)
Definition converter_escape_ctrlchars (self : JsonKeyQuoteConverter)
    : option JsonKeyQuoteConverter :=
  option_map (fun j => {| conv_json := j; conv_quote_type := conv_quote_type self |})
    (json_escape_ctrlchars (conv_json self)).

Definition converter_unescape_ctrlchars (self : JsonKeyQuoteConverter)
    : option JsonKeyQuoteConverter :=
  option_map (fun j => {| conv_json := j; conv_quote_type := conv_quote_type self |})
    (json_unescape_ctrlchars (conv_json self)).

(** [fn json(self) -> String] *)
Definition converter_json (self : JsonKeyQuoteConverter) : text := conv_json self.

(** ** load_write_utils.rs and the file conversions of json_key_quote_utils.rs

    The operating system is a parameter: [fs_read_to_string] and [fs_write]
    stand for [std::fs::read_to_string] and [std::fs::write] on a [world];
    [fs_write] may change the world even when it reports an error.  The
    lines printed by [eprintln!] are collected in a list of errors;
    [eprintln!] panics when the write to stderr fails, which
    [stderr_writable] decides in the world at hand. *)

(** [Result<T, E>] *)
Inductive result (A E : Type) : Type :=
| Ok (a : A)
| Err (e : E).
Arguments Ok {A E} a.
Arguments Err {A E} e.

Section FileSystem.
Context {world path io_error : Type}.
Variable fs_read_to_string : world -> path -> result text io_error.
Variable fs_write : world -> path -> text -> world * result unit io_error.
Variable stderr_writable : world -> bool.

Definition load_json (w : world) (p : path) : result text io_error :=
  match fs_read_to_string w p with
  | Ok val => Ok val
  | Err err => Err err
  end.

Definition write_json (w : world) (p : path) (json : text) : world * result unit io_error :=
  let (w', r) := fs_write w p json in
  (w', match r with Ok _ => Ok tt | Err err => Err err end).

(** [eprintln!("{}", err)]: [None] is the panic on a failed write. *)
Definition eprintln (w : world) (stderr : list io_error) (err : io_error)
    : option (list io_error) :=
  if stderr_writable w then Some (stderr ++ [err]) else None.

(** The state threaded through a conversion: the world and stderr.  [None]
    stands for a panic, of the core functions or of [eprintln!]. *)
Definition json_convert_with_to_without_keyquotes (w : world) (stderr : list io_error)
    (p : path) : option (world * list io_error) :=
  match load_json w p with
  | Err err => option_map (fun s => (w, s)) (eprintln w stderr err)
  | Ok json =>
      let unquoted_json := json_remove_key_quotes json in
      obind (json_unescape_ctrlchars unquoted_json) (fun out =>
        let (w', r) := write_json w p out in
        match r with
        | Ok tt => Some (w', stderr)
        | Err err => option_map (fun s => (w', s)) (eprintln w' stderr err)
        end)
  end.

Definition json_convert_without_to_with_keyquotes (w : world) (stderr : list io_error)
    (p : path) (quote_type : Quotes) : option (world * list io_error) :=
  match load_json w p with
  | Err err => option_map (fun s => (w, s)) (eprintln w stderr err)
  | Ok json =>
      let keyquoted_json := json_add_key_quotes json quote_type in
      obind (json_escape_ctrlchars keyquoted_json) (fun out =>
        let (w', r) := write_json w p out in
        match r with
        | Ok tt => Some (w', stderr)
        | Err err => option_map (fun s => (w', s)) (eprintln w' stderr err)
        end)
  end.
End FileSystem.

(** ** Auxiliary notions for the statements *)

Definition is_quote (c : char) : bool := (c =? c_dq) || (c =? c_sq).

(** The text with every quote character erased. *)
Definition erase_quotes (t : text) : text := filter (fun c => negb (is_quote c)) t.

(** [ins_by p a b]: [b] is [a] with characters satisfying [p] inserted. *)
Inductive ins_by (p : char -> bool) : text -> text -> Prop :=
| ins_nil : ins_by p [] []
| ins_keep c a b : ins_by p a b -> ins_by p (c :: a) (c :: b)
| ins_new c a b : p c = true -> ins_by p a b -> ins_by p a (c :: b).



(** CR, LF and TAB, and the escape sequence the escaper writes for each. *)
Definition is_ctrl (c : char) : bool := (c =? c_cr) || (c =? c_lf) || (c =? c_tab).

Definition esc_of (c : char) : text :=
  if c =? c_cr then bs_r else if c =? c_lf then bs_n else bs_t.

(** [esc_rel a b]: [b] is [a] with some of its CR, LF and TAB characters
    deleted and some replaced by their escape sequences. *)
Inductive esc_rel : text -> text -> Prop :=
| er_nil : esc_rel [] []
| er_keep c a b : esc_rel a b -> esc_rel (c :: a) (c :: b)
| er_drop c a b : is_ctrl c = true -> esc_rel a b -> esc_rel (c :: a) b
| er_esc c a b : is_ctrl c = true -> esc_rel a b -> esc_rel (c :: a) (esc_of c ++ b).

(** [edit_by d i a b]: [b] is [a] with some characters satisfying [d]
    deleted and characters satisfying [i] inserted. *)
Inductive edit_by (d i : char -> bool) : text -> text -> Prop :=
| ed_nil : edit_by d i [] []
| ed_keep c a b : edit_by d i a b -> edit_by d i (c :: a) (c :: b)
| ed_del c a b : d c = true -> edit_by d i a b -> edit_by d i (c :: a) b
| ed_ins c a b : i c = true -> edit_by d i a b -> edit_by d i a (c :: b).

(** The characters of the escape sequences: backslash, r, n and t. *)
Definition esc_seq_char (c : char) : bool :=
  (c =? c_bslash) || (c =? 114) || (c =? 110) || (c =? 116).

(** [unquote_keys q a b]: [b] is [a] with the quotes [q] taken off some
    keys: runs of key characters that follow one of [{], [[] and [,] and
    white space, and precede white space and a colon. *)
Inductive unquote_keys (q : char) : text -> text -> Prop :=
| uk_nil : unquote_keys q [] []
| uk_keep c a b : unquote_keys q a b -> unquote_keys q (c :: a) (c :: b)
| uk_strip d ws k ws' a b :
    open_delim d = true -> forallb is_space ws = true ->
    forallb SUPPORTED_KEY_CHAR k = true -> forallb is_space ws' = true ->
    unquote_keys q a b ->
    unquote_keys q (d :: ws ++ q :: k ++ q :: ws' ++ c_colon :: a)
                   (d :: ws ++ k ++ ws' ++ c_colon :: b).


(** Whether a quote character follows one of [{], [[] and [,], with only
    white space in between. *)
Fixpoint ws_then_quote (t : text) : bool :=
  match t with
  | [] => false
  | c :: t' => is_quote c || (is_space c && ws_then_quote t')
  end.

Fixpoint quote_after_delim (t : text) : bool :=
  match t with
  | [] => false
  | c :: t' => (open_delim c && ws_then_quote t') || quote_after_delim t'
  end.











(** An in-memory file system (paths are numbers), used to instantiate the
    file-system parameters of the conversions: reading a missing file
    fails, writing always succeeds. *)
Definition mem_fs : Type := nat -> option text.

Definition mem_read (w : mem_fs) (p : nat) : result text unit :=
  match w p with Some v => Ok v | None => Err tt end.

Definition mem_write (w : mem_fs) (p : nat) (s : text) : mem_fs * result unit unit :=
  ((fun p' => if Nat.eqb p' p then Some s else w p'), Ok tt).

(** ** Soundness of the matcher with respect to a big-step relation *)

Close Scope N_scope.
Open Scope nat_scope.

Inductive Matches : regex -> nat -> text -> caps -> nat -> text -> caps -> Prop :=
| MClass p pos c s cs :
    p c = true -> Matches (RClass p) pos (c :: s) cs (S pos) s cs
| MSeq r1 r2 pos s cs p1 s1 c1 p2 s2 c2 :
    Matches r1 pos s cs p1 s1 c1 -> Matches r2 p1 s1 c1 p2 s2 c2 ->
    Matches (RSeq r1 r2) pos s cs p2 s2 c2
| MAltL r1 r2 pos s cs p1 s1 c1 :
    Matches r1 pos s cs p1 s1 c1 -> Matches (RAlt r1 r2) pos s cs p1 s1 c1
| MAltR r1 r2 pos s cs p1 s1 c1 :
    Matches r2 pos s cs p1 s1 c1 -> Matches (RAlt r1 r2) pos s cs p1 s1 c1
| MStarNil g r pos s cs : Matches (RStar g r) pos s cs pos s cs
| MStarCons g r pos s cs p1 s1 c1 p2 s2 c2 :
    Matches r pos s cs p1 s1 c1 -> pos < p1 -> Matches (RStar g r) p1 s1 c1 p2 s2 c2 ->
    Matches (RStar g r) pos s cs p2 s2 c2
| MGroup n r pos s cs p1 s1 c1 :
    Matches r pos s cs p1 s1 c1 ->
    Matches (RGroup n r) pos s cs p1 s1 ((n, (pos, p1)) :: c1).

Definition sound_for (r : regex) (m : matcher) : Prop :=
  forall pos s cs k res, m pos s cs k = Some res ->
  exists p' s' cs', Matches r pos s cs p' s' cs' /\ k p' s' cs' = Some res.

Lemma star_loop_sound g r m :
  sound_for r m -> forall fuel, sound_for (RStar g r) (star_loop m g fuel).
Proof.
  intros Hm fuel; induction fuel as [|f IH]; intros pos s cs k res H; simpl in H.
  - exists pos, s, cs; split; [constructor | exact H].
  - assert (Hagain : forall x,
      m pos s cs (fun pos' s' cs' =>
        if Nat.ltb pos pos' then star_loop m g f pos' s' cs' k else None) = Some x ->
      exists p' s' cs', Matches (RStar g r) pos s cs p' s' cs' /\ k p' s' cs' = Some x).
    { intros x Hx. destruct (Hm _ _ _ _ _ Hx) as (p1 & s1 & c1 & HM & Hk).
      destruct (Nat.ltb pos p1) eqn:Hlt; [|discriminate].
      apply Nat.ltb_lt in Hlt.
      destruct (IH _ _ _ _ _ Hk) as (p2 & s2 & c2 & HM2 & Hk2).
      exists p2, s2, c2; split; [econstructor; eauto | exact Hk2]. }
    destruct g.
    + destruct (m pos s cs _) eqn:E.
      * inversion H; subst. apply Hagain; reflexivity.
      * exists pos, s, cs; split; [constructor | exact H].
    + destruct (k pos s cs) eqn:E.
      * inversion H; subst. exists pos, s, cs; split; [constructor | exact E].
      * apply Hagain; exact H.
Qed.

Lemma mtch_sound r : sound_for r (mtch r).
Proof.
  induction r as [p | r1 IH1 r2 IH2 | r1 IH1 r2 IH2 | g r1 IH | n r1 IH];
    intros pos s cs k res H; simpl in H.
  - destruct s as [|c s']; [discriminate|].
    destruct (p c) eqn:Hp; [|discriminate].
    exists (S pos), s', cs; split; [constructor; exact Hp | exact H].
  - destruct (IH1 _ _ _ _ _ H) as (p1 & s1 & c1 & HM1 & Hk1).
    destruct (IH2 _ _ _ _ _ Hk1) as (p2 & s2 & c2 & HM2 & Hk2).
    exists p2, s2, c2; split; [econstructor; eauto | exact Hk2].
  - destruct (mtch r1 pos s cs k) eqn:E.
    + inversion H; subst.
      destruct (IH1 _ _ _ _ _ E) as (p1 & s1 & c1 & HM1 & Hk1).
      exists p1, s1, c1; split; [apply MAltL; exact HM1 | exact Hk1].
    + destruct (IH2 _ _ _ _ _ H) as (p1 & s1 & c1 & HM1 & Hk1).
      exists p1, s1, c1; split; [apply MAltR; exact HM1 | exact Hk1].
  - exact (star_loop_sound g r1 (mtch r1) IH _ _ _ _ _ _ H).
  - destruct (IH _ _ _ _ _ H) as (p1 & s1 & c1 & HM1 & Hk1).
    exists p1, s1, ((n, (pos, p1)) :: c1); split; [constructor; exact HM1 | exact Hk1].
Qed.

(** A match consumes a prefix of the input and only adds capture slots. *)
Lemma Matches_consumes r pos s cs p s' cs' :
  Matches r pos s cs p s' cs' ->
  exists w, s = w ++ s' /\ p = pos + length w.
Proof.
  induction 1.
  - exists [c]; simpl; split; [reflexivity | lia].
  - destruct IHMatches1 as (w1 & -> & ->), IHMatches2 as (w2 & -> & ->).
    exists (w1 ++ w2); rewrite app_assoc, length_app; split; [reflexivity | lia].
  - exact IHMatches.
  - exact IHMatches.
  - exists []; simpl; split; [reflexivity | lia].
  - destruct IHMatches1 as (w1 & -> & ->), IHMatches2 as (w2 & -> & ->).
    exists (w1 ++ w2); rewrite app_assoc, length_app; split; [reflexivity | lia].
  - exact IHMatches.
Qed.

Lemma Matches_caps r pos s cs p s' cs' :
  Matches r pos s cs p s' cs' -> exists x, cs' = x ++ cs.
Proof.
  induction 1; try (exists []; reflexivity); try assumption.
  - destruct IHMatches1 as (x1 & ->), IHMatches2 as (x2 & ->).
    exists (x2 ++ x1); rewrite app_assoc; reflexivity.
  - destruct IHMatches1 as (x1 & ->), IHMatches2 as (x2 & ->).
    exists (x2 ++ x1); rewrite app_assoc; reflexivity.
  - destruct IHMatches as (x & ->). exists ((n, (pos, p1)) :: x); reflexivity.
Qed.

Fixpoint no_groups (r : regex) : bool :=
  match r with
  | RClass _ => true
  | RSeq r1 r2 | RAlt r1 r2 => no_groups r1 && no_groups r2
  | RStar _ r1 => no_groups r1
  | RGroup _ _ => false
  end.

Lemma Matches_no_groups r pos s cs p s' cs' :
  Matches r pos s cs p s' cs' -> no_groups r = true -> cs' = cs.
Proof.
  induction 1; simpl; intros Hng; try reflexivity;
    repeat match goal with H : _ && _ = true |- _ => apply andb_prop in H; destruct H end;
    try discriminate.
  - rewrite IHMatches2, IHMatches1 by assumption; reflexivity.
  - auto.
  - auto.
  - rewrite IHMatches2, IHMatches1 by assumption; reflexivity.
Qed.

(** ** Searching and iterating *)

Lemma skipn_succ_cons (t s : text) pos c :
  skipn pos t = c :: s -> skipn (S pos) t = s.
Proof.
  intros H. replace (S pos) with (1 + pos) by lia.
  rewrite <- skipn_skipn, H. reflexivity.
Qed.

Lemma skipn_shift (t w r : text) a :
  skipn a t = w ++ r -> skipn (a + length w) t = r.
Proof.
  intros H. rewrite Nat.add_comm, <- skipn_skipn, H, skipn_app, skipn_all, Nat.sub_diag.
  reflexivity.
Qed.

Lemma slice_prefix (t w r : text) a :
  skipn a t = w ++ r -> slice t a (a + length w) = w.
Proof.
  intros H. unfold slice. rewrite H. replace (a + length w - a) with (length w) by lia.
  rewrite firstn_app, firstn_all, Nat.sub_diag. simpl. apply app_nil_r.
Qed.

Lemma skipn_split_at (t : text) a b :
  a <= b -> skipn a t = slice t a b ++ skipn b t.
Proof.
  intros Hab. unfold slice.
  rewrite <- (firstn_skipn (b - a) (skipn a t)) at 1.
  rewrite skipn_skipn. f_equal. f_equal. lia.
Qed.

Lemma search_from_sound r t : forall s pos st e cs,
  s = skipn pos t -> search_from r pos s = Some (st, e, cs) ->
  pos <= st /\ Matches r st (skipn st t) [] e (skipn e t) cs.
Proof.
  induction s as [|c s IH]; intros pos st e cs Hs H; simpl in H;
    destruct (mtch r pos _ [] _) as [[e' cs']|] eqn:E.
  1,3: inversion H; subst;
       destruct (mtch_sound r _ _ _ _ _ E) as (p' & s' & c' & HM & Hk);
       inversion Hk; subst;
       destruct (Matches_consumes _ _ _ _ _ _ _ HM) as (w & Hw & ->);
       split; [lia|]; rewrite <- Hs;
       rewrite (skipn_shift t w s' st) by (rewrite <- Hs; exact Hw); exact HM.
  - discriminate.
  - destruct (IH (S pos) st e cs) as [Hle HM].
    + symmetry; apply (skipn_succ_cons t s pos c); symmetry; exact Hs.
    + exact H.
    + split; [lia | exact HM].
Qed.

(** The matches reported by [captures_iter], in order and without overlap. *)
Fixpoint valid_matches (r : regex) (t : text) (last : nat)
    (ms : list (nat * nat * caps)) : Prop :=
  match ms with
  | [] => True
  | (st, e, cs) :: ms' =>
      last <= st /\ Matches r st (skipn st t) [] e (skipn e t) cs /\ valid_matches r t e ms'
  end.

Lemma valid_matches_weaken r t ms a b :
  b <= a -> valid_matches r t a ms -> valid_matches r t b ms.
Proof.
  destruct ms as [|[[st e] cs] ms]; simpl; [tauto|]. intros Hba (H1 & H2 & H3).
  repeat split; auto; lia.
Qed.

Lemma Matches_le r pos s cs p s' cs' :
  Matches r pos s cs p s' cs' -> pos <= p.
Proof.
  intros HM. destruct (Matches_consumes _ _ _ _ _ _ _ HM) as (w & _ & ->). lia.
Qed.

Lemma matches_from_valid r t : forall fuel pos s,
  s = skipn pos t -> valid_matches r t pos (matches_from fuel r pos s).
Proof.
  induction fuel as [|f IH]; intros pos s Hs; simpl; [exact I|].
  destruct (search_from r pos s) as [[[st e] cs]|] eqn:E; [|exact I].
  destruct (search_from_sound r t s pos st e cs Hs E) as [Hle HM].
  pose proof (Matches_le _ _ _ _ _ _ _ HM) as Hse.
  simpl. repeat split; [exact Hle | exact HM |].
  apply valid_matches_weaken with (a := if Nat.ltb st e then e else S e).
  - destruct (Nat.ltb st e); lia.
  - apply IH. rewrite Hs, skipn_skipn. f_equal.
    destruct (Nat.ltb st e); lia.
Qed.

Lemma captures_iter_valid r t : valid_matches r t 0 (captures_iter r t).
Proof. apply matches_from_valid. reflexivity. Qed.

(** [replace_all] relates the text to its result as soon as every single
    match is related to its replacement, for any relation closed under
    concatenation. *)
Section ReplaceAll.
Variable R : text -> text -> Prop.
Hypothesis R_refl : forall a, R a a.
Hypothesis R_app : forall a b c d, R a b -> R c d -> R (a ++ c) (b ++ d).
Variable r : regex.
Variable tmpl : list piece.
Variable t : text.
Hypothesis R_match : forall st e cs,
  Matches r st (skipn st t) [] e (skipn e t) cs -> R (slice t st e) (expand t cs tmpl).

Lemma replace_matches_rel : forall ms last,
  valid_matches r t last ms -> R (skipn last t) (replace_matches t tmpl ms last).
Proof.
  induction ms as [|[[st e] cs] ms IH]; intros last Hv; simpl.
  - apply R_refl.
  - destruct Hv as (Hle & HM & Hv).
    pose proof (Matches_le _ _ _ _ _ _ _ HM) as Hse.
    rewrite (skipn_split_at t last st Hle), (skipn_split_at t st e Hse).
    apply R_app; [apply R_refl|]. apply R_app; [apply R_match; exact HM|].
    apply IH; exact Hv.
Qed.

Lemma replace_all_rel : R t (replace_all r t tmpl).
Proof.
  unfold replace_all. rewrite <- (skipn_0 t) at 1.
  apply replace_matches_rel, captures_iter_valid.
Qed.
End ReplaceAll.

(** ** Shapes of the matches of the rewriting patterns *)

Ltac inv_matches :=
  repeat match goal with
  | H : Matches (RSeq _ _) _ _ _ _ _ _ |- _ => inversion H; subst; clear H
  | H : Matches (RGroup _ _) _ _ _ _ _ _ |- _ => inversion H; subst; clear H
  | H : Matches (RClass _) _ _ _ _ _ _ |- _ => inversion H; subst; clear H
  end.

Ltac caps_fixed :=
  repeat match goal with
  | H : Matches ?r _ _ ?c _ _ ?c', Hr : no_groups ?r = true |- _ =>
      pose proof (Matches_no_groups _ _ _ _ _ _ _ H Hr); subst c'
  end.

Ltac consumed H w :=
  destruct (Matches_consumes _ _ _ _ _ _ _ H) as (w & -> & ->).

(** [(g1 A)(g2 B)(g3 C)] *)
Lemma Matches_three_groups A B C pos s p s' cs :
  no_groups A = true -> no_groups B = true -> no_groups C = true ->
  Matches (RGroup 1 A @@ RGroup 2 B @@ RGroup 3 C) pos s [] p s' cs ->
  exists w1 w2 w3,
    s = w1 ++ w2 ++ w3 ++ s' /\
    cs = [(3, (pos + length w1 + length w2, p));
          (2, (pos + length w1, pos + length w1 + length w2));
          (1, (pos, pos + length w1))] /\
    p = pos + length w1 + length w2 + length w3 /\
    Matches A pos s [] (pos + length w1) (w2 ++ w3 ++ s') [].
Proof.
  intros HA HB HC H. inv_matches.
  caps_fixed.
  match goal with
  | MA : Matches A _ _ _ _ _ _, MB : Matches B _ _ _ _ _ _, MC : Matches C _ _ _ _ _ _ |- _ =>
      consumed MC w3; consumed MB w2; consumed MA w1
  end.
  exists w1, w2, w3. repeat split; try reflexivity; try lia; assumption.
Qed.

(** [(g1 A)(g2 B)] *)
Lemma Matches_two_groups A B pos s p s' cs :
  no_groups A = true -> no_groups B = true ->
  Matches (RGroup 1 A @@ RGroup 2 B) pos s [] p s' cs ->
  exists w1 w2,
    s = w1 ++ w2 ++ s' /\
    cs = [(2, (pos + length w1, p)); (1, (pos, pos + length w1))] /\
    p = pos + length w1 + length w2.
Proof.
  intros HA HB H. inv_matches. caps_fixed.
  match goal with
  | MA : Matches A _ _ _ _ _ _, MB : Matches B _ _ _ _ _ _ |- _ =>
      consumed MB w2; consumed MA w1
  end.
  exists w1, w2. repeat split; try reflexivity; lia.
Qed.

Lemma Matches_char q pos s cs p s' cs' :
  Matches (RChar q) pos s cs p s' cs' -> s = q :: s' /\ p = S pos /\ cs' = cs.
Proof.
  intros H. inversion H; subst.
  match goal with E : N.eqb q _ = true |- _ => apply N.eqb_eq in E; subst end.
  repeat split.
Qed.

(** [(g1 A) q (g2 B) q (g3 C)] *)
Lemma Matches_quoted_middle A B C q pos s p s' cs :
  no_groups A = true -> no_groups B = true -> no_groups C = true ->
  Matches (RGroup 1 A @@ RChar q @@ RGroup 2 B @@ RChar q @@ RGroup 3 C) pos s [] p s' cs ->
  exists w1 w2 w3,
    s = w1 ++ [q] ++ w2 ++ [q] ++ w3 ++ s' /\
    cs = [(3, (S (S (pos + length w1 + length w2)), p));
          (2, (S (pos + length w1), S (pos + length w1 + length w2)));
          (1, (pos, pos + length w1))] /\
    p = S (S (pos + length w1 + length w2 + length w3)) /\
    Matches A pos s [] (pos + length w1) ([q] ++ w2 ++ [q] ++ w3 ++ s') [].
Proof.
  intros HA HB HC H.
  inversion H; subst; clear H.
  match goal with H : Matches (RGroup 1 A) _ _ _ _ _ _ |- _ => inversion H; subst; clear H end.
  match goal with H : Matches (RSeq (RChar q) _) _ _ _ _ _ _ |- _ => inversion H; subst; clear H end.
  match goal with H : Matches (RChar q) _ _ _ _ _ _ |- _ =>
    destruct (Matches_char _ _ _ _ _ _ _ H) as (-> & -> & ->); clear H end.
  match goal with H : Matches (RSeq (RGroup 2 B) _) _ _ _ _ _ _ |- _ => inversion H; subst; clear H end.
  match goal with H : Matches (RGroup 2 B) _ _ _ _ _ _ |- _ => inversion H; subst; clear H end.
  match goal with H : Matches (RSeq (RChar q) _) _ _ _ _ _ _ |- _ => inversion H; subst; clear H end.
  match goal with H : Matches (RChar q) _ _ _ _ _ _ |- _ =>
    destruct (Matches_char _ _ _ _ _ _ _ H) as (-> & -> & ->); clear H end.
  match goal with H : Matches (RGroup 3 C) _ _ _ _ _ _ |- _ => inversion H; subst; clear H end.
  caps_fixed.
  match goal with
  | MA : Matches A _ _ _ _ _ _, MB : Matches B _ _ _ _ _ _, MC : Matches C _ _ _ _ _ _ |- _ =>
      consumed MC w3; consumed MB w2; consumed MA w1
  end.
  exists w1, w2, w3. repeat split; try reflexivity; try lia; try assumption.
Qed.

(** ** Insertions *)

Lemma ins_by_refl p a : ins_by p a a.
Proof. induction a; constructor; assumption. Qed.

Lemma ins_by_app p a b c d : ins_by p a b -> ins_by p c d -> ins_by p (a ++ c) (b ++ d).
Proof.
  induction 1; intros Hcd; simpl.
  - exact Hcd.
  - apply ins_keep; auto.
  - apply ins_new; auto.
Qed.

Lemma ins_by_trans p a b c : ins_by p a b -> ins_by p b c -> ins_by p a c.
Proof.
  intros H1 H2. revert a H1. induction H2; intros a0 H1.
  - inversion H1; subst. constructor.
  - inversion H1; subst.
    + apply ins_keep; auto.
    + apply ins_new; auto.
  - apply ins_new; auto.
Qed.

Lemma ins_by_erase p a b :
  (forall c, p c = true -> is_quote c = true) -> ins_by p a b -> erase_quotes a = erase_quotes b.
Proof.
  intros Hp. induction 1; unfold erase_quotes in *; simpl.
  - reflexivity.
  - destruct (negb (is_quote c)); congruence.
  - rewrite (Hp c H). simpl. exact IHins_by.
Qed.

Lemma as_str_quote_char q : as_str q = [quote_char q].
Proof. destruct q; reflexivity. Qed.

Lemma quote_char_is_quote q c : N.eqb (quote_char q) c = true -> is_quote c = true.
Proof. intros H. apply N.eqb_eq in H; subst. destruct q; reflexivity. Qed.

Lemma group_text_at t a b w r cs n :
  skipn a t = w ++ r -> cap_get n cs = Some (a, b) -> b = a + length w ->
  group_text t cs n = Some w.
Proof.
  intros Hs Hc ->. unfold group_text. rewrite Hc. f_equal. apply (slice_prefix t w r a Hs).
Qed.

(** One match of a three-group add pattern, replaced by
    [$1 q $2 q $3]: only the two quotes are new. *)
Lemma add_middle_match q A B C t st e cs :
  no_groups A = true -> no_groups B = true -> no_groups C = true ->
  Matches (RGroup 1 A @@ RGroup 2 B @@ RGroup 3 C) st (skipn st t) [] e (skipn e t) cs ->
  ins_by (N.eqb (quote_char q)) (slice t st e) (expand t cs (tmpl_quote_middle q)).
Proof.
  intros HA HB HC HM.
  destruct (Matches_three_groups A B C st _ e _ cs HA HB HC HM)
    as (w1 & w2 & w3 & Hs & -> & -> & _).
  set (rest := skipn (st + length w1 + length w2 + length w3) t) in *.
  pose proof (skipn_shift t w1 _ st Hs) as Hs2.
  pose proof (skipn_shift t w2 _ _ Hs2) as Hs3.
  unfold expand, tmpl_quote_middle; cbn [flat_map].
  rewrite (group_text_at t st _ w1 _ _ 1 Hs) by reflexivity.
  rewrite (group_text_at t _ _ w2 _ _ 2 Hs2) by reflexivity.
  rewrite (group_text_at t _ _ w3 _ _ 3 Hs3) by reflexivity.
  replace (st + length w1 + length w2 + length w3) with (st + length (w1 ++ w2 ++ w3))
    by (rewrite !length_app; lia).
  rewrite (slice_prefix t (w1 ++ w2 ++ w3) rest st) by (rewrite <- !app_assoc; exact Hs).
  rewrite as_str_quote_char, app_nil_r.
  apply ins_by_app; [apply ins_by_refl|].
  apply ins_new; [apply N.eqb_refl|].
  apply ins_by_app; [apply ins_by_refl|].
  apply ins_new; [apply N.eqb_refl|]. apply ins_by_refl.
Qed.

(** One match of the object pattern, replaced by [q $1 q $2]. *)
Lemma add_first_match q A B t st e cs :
  no_groups A = true -> no_groups B = true ->
  Matches (RGroup 1 A @@ RGroup 2 B) st (skipn st t) [] e (skipn e t) cs ->
  ins_by (N.eqb (quote_char q)) (slice t st e) (expand t cs (tmpl_quote_first q)).
Proof.
  intros HA HB HM.
  destruct (Matches_two_groups A B st _ e _ cs HA HB HM) as (w1 & w2 & Hs & -> & ->).
  set (rest := skipn (st + length w1 + length w2) t) in *.
  pose proof (skipn_shift t w1 _ st Hs) as Hs2.
  unfold expand, tmpl_quote_first; cbn [flat_map].
  rewrite (group_text_at t st _ w1 _ _ 1 Hs) by reflexivity.
  rewrite (group_text_at t _ _ w2 _ _ 2 Hs2) by reflexivity.
  replace (st + length w1 + length w2) with (st + length (w1 ++ w2))
    by (rewrite !length_app; lia).
  rewrite (slice_prefix t (w1 ++ w2) rest st) by (rewrite <- !app_assoc; exact Hs).
  rewrite as_str_quote_char, app_nil_r.
  apply ins_new; [apply N.eqb_refl|].
  apply ins_by_app; [apply ins_by_refl|].
  apply ins_new; [apply N.eqb_refl|]. apply ins_by_refl.
Qed.

(** One match of the removal pattern, replaced by [$1 $2 $3]: only the
    two quotes [qc] go. *)
Lemma remove_match qc t st e cs :
  is_quote qc = true ->
  Matches (remove_quotes_regex qc) st (skipn st t) [] e (skipn e t) cs ->
  ins_by is_quote (expand t cs tmpl_unquote) (slice t st e).
Proof.
  intros Hq HM.
  destruct (Matches_quoted_middle (RClass open_delim @@ ws_greedy) key_chars_lazy
              (ws_lazy @@ colon) qc st _ e _ cs eq_refl eq_refl eq_refl HM)
    as (w1 & w2 & w3 & Hs & -> & -> & _).
  set (rest := skipn (S (S (st + length w1 + length w2 + length w3))) t) in *.
  pose proof (skipn_shift t w1 _ st Hs) as Hq1.
  pose proof (skipn_succ_cons t _ _ _ Hq1) as Hs2.
  pose proof (skipn_shift t w2 _ _ Hs2) as Hq2.
  pose proof (skipn_succ_cons t _ _ _ Hq2) as Hs3.
  unfold expand, tmpl_unquote; cbn [flat_map].
  rewrite (group_text_at t st _ w1 _ _ 1 Hs) by reflexivity.
  rewrite (group_text_at t _ _ w2 _ _ 2 Hs2) by first [reflexivity | simpl; lia].
  rewrite (group_text_at t _ _ w3 _ _ 3 Hs3) by first [reflexivity | simpl; lia].
  replace (S (S (st + length w1 + length w2 + length w3)))
    with (st + length (w1 ++ [qc] ++ w2 ++ [qc] ++ w3))
    by (rewrite !length_app; simpl; lia).
  rewrite (slice_prefix t (w1 ++ [qc] ++ w2 ++ [qc] ++ w3) rest st)
    by (rewrite <- !app_assoc; exact Hs).
  rewrite app_nil_r.
  apply ins_by_app; [apply ins_by_refl|].
  apply ins_new; [exact Hq|].
  apply ins_by_app; [apply ins_by_refl|].
  apply ins_new; [exact Hq|]. apply ins_by_refl.
Qed.

(** Every pass of json_add_key_quotes only inserts the chosen quote. *)
Lemma add_key_quotes_ins json q :
  ins_by (N.eqb (quote_char q)) json (json_add_key_quotes json q).
Proof.
  unfold json_add_key_quotes.
  repeat (eapply ins_by_trans;
    [| apply (replace_all_rel (ins_by (N.eqb (quote_char q))));
      [ apply ins_by_refl | apply ins_by_app
      | intros st e cs HM;
        first [ eapply add_middle_match; [.. | exact HM]; reflexivity
              | eapply add_first_match; [.. | exact HM]; reflexivity ] ] ]).
  apply ins_by_refl.
Qed.

(** The two passes of json_remove_key_quotes only delete quotes. *)
Lemma remove_key_quotes_ins json :
  ins_by is_quote (json_remove_key_quotes json) json.
Proof.
  unfold json_remove_key_quotes.
  eapply ins_by_trans; [|
    apply (replace_all_rel (fun a b => ins_by is_quote b a));
    [ apply ins_by_refl | intros; apply ins_by_app; assumption
    | intros st e cs HM; apply (remove_match c_sq _ _ _ _ eq_refl HM) ] ].
  apply (replace_all_rel (fun a b => ins_by is_quote b a));
    [ apply ins_by_refl | intros; apply ins_by_app; assumption
    | intros st e cs HM; apply (remove_match c_dq _ _ _ _ eq_refl HM) ].
Qed.

(** ** Groups that take part in every match *)

(** [has_group n r]: group [n] occurs in [r] outside every star and on
    both sides of every alternative. *)
Fixpoint has_group (n : nat) (r : regex) : bool :=
  match r with
  | RClass _ | RStar _ _ => false
  | RSeq r1 r2 => has_group n r1 || has_group n r2
  | RAlt r1 r2 => has_group n r1 && has_group n r2
  | RGroup m r1 => Nat.eqb m n || has_group n r1
  end.

Lemma cap_get_app n x cs : cap_get n cs <> None -> cap_get n (x ++ cs) <> None.
Proof.
  induction x as [|[m sp] x IH]; simpl; [tauto|].
  intros H. destruct (Nat.eqb n m); [discriminate | auto].
Qed.

Lemma Matches_has_group g r pos s cs p s' cs' :
  Matches r pos s cs p s' cs' -> has_group g r = true -> cap_get g cs' <> None.
Proof.
  induction 1; simpl; intros Hg; try discriminate.
  - apply orb_prop in Hg as [Hg|Hg].
    + destruct (Matches_caps _ _ _ _ _ _ _ H0) as (x & ->).
      apply cap_get_app; auto.
    + auto.
  - apply andb_prop in Hg as [Hg _]; auto.
  - apply andb_prop in Hg as [_ Hg]; auto.
  - destruct (Nat.eqb n g) eqn:E.
    + apply Nat.eqb_eq in E; subst. rewrite Nat.eqb_refl. discriminate.
    + simpl in Hg. rewrite Nat.eqb_sym, E. auto.
Qed.

Lemma capture_pass_total r g lines json :
  has_group g r = true -> capture_pass r g lines json <> None.
Proof.
  intros Hg. unfold capture_pass.
  assert (Hgen : forall ms last acc, valid_matches r json last ms -> acc <> None ->
    fold_left
      (fun acc '(_, _, cs) =>
         obind acc (fun new_json =>
           obind (group_text json cs g) (fun cap_match =>
             Some (apply_lines lines cap_match new_json)))) ms acc <> None).
  { induction ms as [|[[st e] cs] ms IH]; intros last acc Hv Hacc; simpl; [exact Hacc|].
    destruct Hv as (_ & HM & Hv). apply (IH e); [exact Hv|].
    destruct acc as [j|]; [|contradiction]. simpl. unfold group_text.
    pose proof (Matches_has_group g _ _ _ _ _ _ _ HM Hg) as Hc.
    destruct (cap_get g cs) as [[a b]|]; [discriminate | contradiction]. }
  apply (Hgen _ 0); [apply captures_iter_valid | discriminate].
Qed.

Lemma run_passes_total ps json :
  (forall p, In p ps -> forall j, p j <> None) -> run_passes ps json <> None.
Proof.
  unfold run_passes. intros Hps.
  assert (Hgen : forall acc, acc <> None -> fold_left (fun acc p => obind acc p) ps acc <> None).
  { induction ps as [|p ps IH]; intros acc Hacc; simpl; [exact Hacc|].
    apply IH; [intros p' Hp'; apply Hps; right; exact Hp'|].
    destruct acc as [j|]; [|contradiction]. apply Hps; left; reflexivity. }
  apply Hgen. discriminate.
Qed.

Lemma escape_iteration_total j : escape_iteration j <> None.
Proof.
  unfold escape_iteration. apply run_passes_total.
  intros p Hp j'. simpl in Hp.
  repeat (destruct Hp as [<-|Hp]; [apply capture_pass_total; reflexivity|]).
  destruct Hp.
Qed.

Lemma unescape_iteration_total j : unescape_iteration j <> None.
Proof.
  unfold unescape_iteration. apply run_passes_total.
  intros p Hp j'. simpl in Hp.
  repeat (destruct Hp as [<-|Hp]; [apply capture_pass_total; reflexivity|]).
  destruct Hp.
Qed.

(** ** Texts without control characters and backslashes *)


Lemma find_first_prefix p s i : find_first p s = Some i -> is_prefix p (skipn i s) = true.
Proof.
  revert i; induction s as [|c s IH]; intros i H; simpl in H.
  - destruct (is_prefix p []) eqn:E; [inversion H; subst; exact E | discriminate].
  - destruct (is_prefix p (c :: s)) eqn:E; [inversion H; subst; exact E|].
    destruct (find_first p s) as [j|] eqn:F; [|discriminate].
    inversion H; subst. apply IH; reflexivity.
Qed.

Lemma is_prefix_app p s : is_prefix p s = true -> s = p ++ skipn (length p) s.
Proof.
  revert s; induction p as [|a p IH]; intros s H; [reflexivity|].
  destruct s as [|b s]; [discriminate|]. simpl in H.
  apply andb_prop in H as [Hab H]. apply N.eqb_eq in Hab; subst.
  simpl. f_equal. apply IH; exact H.
Qed.

(** Replacing the first occurrence of a text by itself changes nothing. *)
Lemma replacen1_same s p : replacen1 s p p = s.
Proof.
  unfold replacen1. destruct (find_first p s) as [i|] eqn:F; [|reflexivity].
  pose proof (find_first_prefix _ _ _ F) as Hp.
  assert (E : skipn i s = p ++ skipn (i + length p) s).
  { rewrite (is_prefix_app _ _ Hp) at 1. f_equal. rewrite skipn_skipn. f_equal. lia. }
  rewrite <- E. apply firstn_skipn.
Qed.

Lemma replace_go_absent a p to : forall f s, ~ In a s -> replace_go f (a :: p) to s = s.
Proof.
  intros f s; revert f; induction s as [|c s IH]; intros f Hn; destruct f; simpl; try reflexivity.
  assert (Hac : (a =? c)%N = false) by (apply N.eqb_neq; intros ->; apply Hn; left; reflexivity).
  rewrite Hac. simpl. f_equal. apply IH. intros Hs; apply Hn; right; exact Hs.
Qed.

Lemma str_replace_absent a p to s : ~ In a s -> str_replace s (a :: p) to = s.
Proof. intros Hn. apply replace_go_absent; exact Hn. Qed.

Lemma In_slice c t a b : In c (slice t a b) -> In c t.
Proof.
  unfold slice. intros H.
  rewrite <- (firstn_skipn a t), <- (firstn_skipn (b - a) (skipn a t)).
  apply in_or_app; right. apply in_or_app; left; exact H.
Qed.

Lemma apply_lines_same lines cap j :
  Forall (fun f => f cap = cap) lines -> apply_lines lines cap j = j.
Proof.
  unfold apply_lines. revert j.
  induction 1 as [|f lines Hf _ IH]; intros; simpl; [reflexivity|].
  rewrite Hf, replacen1_same. apply IH.
Qed.

Lemma capture_pass_same r g lines j :
  has_group g r = true ->
  (forall cap, (forall c, In c cap -> In c j) -> Forall (fun f => f cap = cap) lines) ->
  capture_pass r g lines j = Some j.
Proof.
  intros Hg Hl. unfold capture_pass.
  assert (Hgen : forall ms last, valid_matches r j last ms ->
    fold_left
      (fun acc '(_, _, cs) =>
         obind acc (fun new_json =>
           obind (group_text j cs g) (fun cap_match =>
             Some (apply_lines lines cap_match new_json)))) ms (Some j) = Some j).
  { induction ms as [|[[st e] cs] ms IH]; intros last Hv; simpl; [reflexivity|].
    destruct Hv as (_ & HM & Hv). unfold group_text.
    pose proof (Matches_has_group g _ _ _ _ _ _ _ HM Hg) as Hc.
    destruct (cap_get g cs) as [[a b]|]; [|contradiction]. simpl.
    rewrite apply_lines_same; [exact (IH e Hv)|].
    apply Hl. intros c; apply In_slice. }
  exact (Hgen _ 0 (captures_iter_valid r j)).
Qed.

Lemma run_passes_same ps j :
  (forall p, In p ps -> p j = Some j) -> run_passes ps j = Some j.
Proof.
  unfold run_passes. induction ps as [|p ps IH]; intros Hps; simpl; [reflexivity|].
  rewrite (Hps p (or_introl eq_refl)). apply IH. intros p' H'; apply Hps; right; exact H'.
Qed.





(** ** Matches of the removal pattern start at a delimiter *)

Lemma In_skipn (c : char) t a : In c (skipn a t) -> In c t.
Proof.
  intros H. rewrite <- (firstn_skipn a t). apply in_or_app; right; exact H.
Qed.

Lemma remove_match_delim qc t st e cs :
  Matches (remove_quotes_regex qc) st (skipn st t) [] e (skipn e t) cs ->
  exists c, In c t /\ open_delim c = true.
Proof.
  intros HM. unfold remove_quotes_regex in HM.
  inversion HM; subst.
  match goal with H : Matches (RGroup 1 _) _ _ _ _ _ _ |- _ => inversion H; subst end.
  match goal with H : Matches (RSeq (RClass open_delim) _) _ _ _ _ _ _ |- _ => inversion H; subst end.
  match goal with H : Matches (RClass open_delim) _ _ _ _ _ _ |- _ => inversion H; subst end.
  exists c. split; [|assumption].
  apply (In_skipn c t st).
  match goal with
  | E : _ :: _ = skipn st t |- _ => rewrite <- E
  | E : skipn st t = _ :: _ |- _ => rewrite E
  end.
  left; reflexivity.
Qed.

Lemma captures_iter_nil r t :
  (forall st e cs, Matches r st (skipn st t) [] e (skipn e t) cs -> False) ->
  captures_iter r t = [].
Proof.
  intros Hn. pose proof (captures_iter_valid r t) as Hv.
  destruct (captures_iter r t) as [|[[st e] cs] ms]; [reflexivity|].
  destruct Hv as (_ & HM & _). destruct (Hn _ _ _ HM).
Qed.

Lemma replace_all_no_match r t tmpl :
  (forall st e cs, Matches r st (skipn st t) [] e (skipn e t) cs -> False) ->
  replace_all r t tmpl = t.
Proof. intros Hn. unfold replace_all. rewrite captures_iter_nil by exact Hn. reflexivity. Qed.

(** * The claims *)

(** C2: the round trip json_remove_key_quotes (json_add_key_quotes t q)
    differs from [t] in quote characters only: erasing every quote
    character from both texts gives the same text.  This holds for every
    input [t] and both quote styles. *)
Theorem C2_round_trip_only_quotes (t : text) (q : Quotes) :
  erase_quotes (json_remove_key_quotes (json_add_key_quotes t q)) = erase_quotes t.
Proof.
  rewrite (ins_by_erase _ _ _ (fun c H => H) (remove_key_quotes_ins (json_add_key_quotes t q))).
  symmetry. apply (ins_by_erase _ _ _ (quote_char_is_quote q)).
  apply add_key_quotes_ins.
Qed.

(** C1, failing input: escaping [{DQ a DQ: DQ CR LF TAB DQ}] once leaves the
    tab raw and escaping the result again escapes it, so
    json_escape_ctrlchars is not idempotent; json_remove_key_quotes is not
    either, on [{DQ SQ a SQ DQ: 1}]. *)
Theorem C1_not_idempotent :
  json_escape_ctrlchars (lit "{@a@: @%#^@}") = Some (lit "{@a@: @\r\n^@}")
  /\ json_escape_ctrlchars (lit "{@a@: @\r\n^@}") = Some (lit "{@a@: @\r\n\t@}")
  /\ lit "{@a@: @\r\n\t@}" <> lit "{@a@: @\r\n^@}"
  /\ json_remove_key_quotes (lit "{@'a'@: 1}") = lit "{'a': 1}"
  /\ json_remove_key_quotes (lit "{'a': 1}") = lit "{a: 1}".
Proof. vm_compute. repeat split; discriminate. Qed.

(** C5: json_add_key_quotes with double quotes turns [{key: DQ val DQ}]
    into [{DQ key DQ: DQ val DQ}] and leaves the latter unchanged. *)
Theorem C5_add_examples :
  json_add_key_quotes (lit "{key: @val@}") DoubleQuote = lit "{@key@: @val@}"
  /\ json_add_key_quotes (lit "{@key@: @val@}") DoubleQuote = lit "{@key@: @val@}".
Proof. vm_compute. split; reflexivity. Qed.

(** C6: json_remove_key_quotes turns [{DQ key DQ: DQ val DQ}] into
    [{key: DQ val DQ}] and leaves the latter unchanged. *)
Theorem C6_remove_examples :
  json_remove_key_quotes (lit "{@key@: @val@}") = lit "{key: @val@}"
  /\ json_remove_key_quotes (lit "{key: @val@}") = lit "{key: @val@}".
Proof. vm_compute. split; reflexivity. Qed.

(** C7, failing input: the documented example and the stripping of a
    line feed in a key hold, but in the value [CR LF TAB] the tab is left
    raw, not escaped. *)
Theorem C7_tab_left_raw :
  json_escape_ctrlchars (lit "{@key@: @va#l@}") = Some (lit "{@key@: @va\nl@}")
  /\ json_escape_ctrlchars (lit "{@ke#y@: @va#l@}") = Some (lit "{@key@: @va\nl@}")
  /\ json_escape_ctrlchars (lit "{@key@: @%#^@}") = Some (lit "{@key@: @\r\n^@}").
Proof. vm_compute. repeat split. Qed.

(** C8: json_escape_ctrlchars and json_unescape_ctrlchars never panic:
    every group they unwrap takes part in every match.  (json_add_key_quotes
    and json_remove_key_quotes are total functions by their type.) *)
Theorem C8_total (t : text) :
  (exists e, json_escape_ctrlchars t = Some e)
  /\ (exists u, json_unescape_ctrlchars t = Some u).
Proof.
  split.
  - destruct (json_escape_ctrlchars t) as [e|] eqn:E; [exists e; reflexivity|].
    exfalso. revert E. apply run_passes_total.
    intros p Hp; simpl in Hp; destruct Hp as [<-|[<-|[]]]; apply escape_iteration_total.
  - destruct (json_unescape_ctrlchars t) as [u|] eqn:E; [exists u; reflexivity|].
    exfalso. revert E. apply run_passes_total.
    intros p Hp; simpl in Hp; destruct Hp as [<-|[<-|[]]]; apply unescape_iteration_total.
Qed.

(** C9, counterexample: in [DQ a DQ: 1, DQ b DQ: 2] the second key, which
    follows a comma, loses its quotes. *)
Example C9_counterexample :
  json_remove_key_quotes (lit "@a@: 1, @b@: 2") = lit "@a@: 1, b: 2".
Proof. vm_compute. reflexivity. Qed.

(** C10: JsonKeyQuoteConverter::new(s, q).json() is [s], and each method
    followed by json() is the core function applied to [s] (the escaping
    methods inherit the option of the core functions). *)
Theorem C10_builder_wraps_core (s : text) (q : Quotes) :
  converter_json (converter_new s q) = s
  /\ converter_json (converter_add_key_quotes (converter_new s q)) = json_add_key_quotes s q
  /\ converter_json (converter_remove_key_quotes (converter_new s q)) = json_remove_key_quotes s
  /\ option_map converter_json (converter_escape_ctrlchars (converter_new s q))
     = json_escape_ctrlchars s
  /\ option_map converter_json (converter_unescape_ctrlchars (converter_new s q))
     = json_unescape_ctrlchars s.
Proof.
  unfold converter_json, converter_new, converter_add_key_quotes, converter_remove_key_quotes,
    converter_escape_ctrlchars, converter_unescape_ctrlchars; simpl.
  repeat split.
  - destruct (json_escape_ctrlchars s); reflexivity.
  - destruct (json_unescape_ctrlchars s); reflexivity.
Qed.

(** * Further properties of the code *)

(** ** Relations kept by the replacen loops *)

Lemma find_first_split p s i :
  find_first p s = Some i -> s = firstn i s ++ p ++ skipn (i + length p) s.
Proof.
  intros F. pose proof (find_first_prefix _ _ _ F) as Hp.
  assert (E : skipn i s = p ++ skipn (i + length p) s).
  { rewrite (is_prefix_app _ _ Hp) at 1. f_equal. rewrite skipn_skipn. f_equal. lia. }
  rewrite <- E. symmetry. apply firstn_skipn.
Qed.

Lemma fold_capture_none json g lines (ms : list (nat * nat * caps)) :
  fold_left
    (fun acc '(_, _, cs) =>
       obind acc (fun new_json =>
         obind (group_text json cs g) (fun cap_match =>
           Some (apply_lines lines cap_match new_json)))) ms None = None.
Proof. induction ms as [|[[st e] cs] ms IH]; simpl; auto. Qed.

Lemma fold_passes_none (ps : list (text -> option text)) :
  fold_left (fun acc p => obind acc p) ps None = None.
Proof. induction ps; simpl; auto. Qed.

Section PassRel.
Variable R : text -> text -> Prop.
Hypothesis R_refl : forall a, R a a.
Hypothesis R_trans : forall a b c, R a b -> R b c -> R a c.
Hypothesis R_app : forall a b c d, R a b -> R c d -> R (a ++ c) (b ++ d).

Lemma replacen1_rel s cap to : R cap to -> R s (replacen1 s cap to).
Proof.
  intros H. unfold replacen1. destruct (find_first cap s) as [i|] eqn:F; [|apply R_refl].
  rewrite (find_first_split _ _ _ F) at 1.
  apply R_app; [apply R_refl|]. apply R_app; [exact H | apply R_refl].
Qed.

Lemma apply_lines_rel lines cap j :
  (forall f, In f lines -> R cap (f cap)) -> R j (apply_lines lines cap j).
Proof.
  unfold apply_lines. revert j.
  induction lines as [|f lines IH]; intros j H; simpl; [apply R_refl|].
  eapply R_trans; [apply replacen1_rel, H; left; reflexivity|].
  apply IH. intros f' Hf'; apply H; right; exact Hf'.
Qed.

Lemma capture_pass_rel r g lines json out :
  (forall f, In f lines -> forall cap, R cap (f cap)) ->
  capture_pass r g lines json = Some out -> R json out.
Proof.
  intros Hl. unfold capture_pass.
  assert (Hgen : forall (ms : list (nat * nat * caps)) j, R json j ->
    fold_left
      (fun acc '(_, _, cs) =>
         obind acc (fun new_json =>
           obind (group_text json cs g) (fun cap_match =>
             Some (apply_lines lines cap_match new_json)))) ms (Some j) = Some out ->
    R json out).
  { induction ms as [|[[st e] cs] ms IH]; intros j Hj H; simpl in H.
    - inversion H; subst; exact Hj.
    - destruct (group_text json cs g) as [cap|]; simpl in H.
      + apply (IH _ (R_trans _ _ _ Hj (apply_lines_rel _ _ _ (fun f Hf => Hl f Hf cap))) H).
      + rewrite fold_capture_none in H; discriminate. }
  apply Hgen, R_refl.
Qed.

Lemma run_passes_rel ps j out :
  (forall p, In p ps -> forall x y, p x = Some y -> R x y) ->
  run_passes ps j = Some out -> R j out.
Proof.
  unfold run_passes. intros Hps.
  assert (Hgen : forall x, R j x -> fold_left (fun acc p => obind acc p) ps (Some x) = Some out ->
    R j out).
  { clear -Hps R_trans. induction ps as [|p ps IH]; intros x Hx H; simpl in H.
    - inversion H; subst; exact Hx.
    - destruct (p x) as [y|] eqn:E; simpl in H.
      + apply (IH (fun p' Hp' => Hps p' (or_intror Hp')) y); [|exact H].
        apply (R_trans _ _ _ Hx), (Hps p (or_introl eq_refl)), E.
      + rewrite fold_passes_none in H; discriminate. }
  apply Hgen, R_refl.
Qed.
End PassRel.

(** ** The escaper only touches CR, LF and TAB *)

Lemma esc_rel_refl a : esc_rel a a.
Proof. induction a; constructor; assumption. Qed.

Lemma esc_rel_app a b c d : esc_rel a b -> esc_rel c d -> esc_rel (a ++ c) (b ++ d).
Proof.
  induction 1; intros Hcd; simpl.
  - exact Hcd.
  - apply er_keep; auto.
  - apply er_drop; auto.
  - rewrite <- app_assoc. apply er_esc; auto.
Qed.

Lemma esc_rel_no_ctrl_prefix w : forall b c,
  forallb (fun x => negb (is_ctrl x)) w = true -> esc_rel (w ++ b) c ->
  exists c', c = w ++ c' /\ esc_rel b c'.
Proof.
  induction w as [|x w IH]; intros b c Hw H; simpl in *; [exists c; auto|].
  apply andb_prop in Hw as [Hx Hw].
  inversion H; subst.
  - destruct (IH _ _ Hw H3) as (c' & -> & Hc'). exists c'; auto.
  - rewrite H2 in Hx; discriminate.
  - rewrite H2 in Hx; discriminate.
Qed.

Lemma esc_of_no_ctrl c : forallb (fun x => negb (is_ctrl x)) (esc_of c) = true.
Proof. unfold esc_of. destruct (c =? c_cr)%N, (c =? c_lf)%N; reflexivity. Qed.

Lemma esc_rel_trans a b c : esc_rel a b -> esc_rel b c -> esc_rel a c.
Proof.
  intros H1. revert c. induction H1; intros c' H2.
  - exact H2.
  - inversion H2; subst.
    + apply er_keep; auto.
    + apply er_drop; auto.
    + apply er_esc; auto.
  - apply er_drop; auto.
  - destruct (esc_rel_no_ctrl_prefix _ _ _ (esc_of_no_ctrl c) H2) as (c'' & -> & Hc).
    apply er_esc; auto.
Qed.

Lemma replace_go_ctrl c to : is_ctrl c = true -> (to = [] \/ to = esc_of c) ->
  forall f s, esc_rel s (replace_go f [c] to s).
Proof.
  intros Hc Hto f. induction f as [|f IH]; intros s; [apply esc_rel_refl|].
  destruct s as [|x s]; simpl; [constructor|].
  destruct (c =? x)%N eqn:E; simpl.
  - apply N.eqb_eq in E; subst x.
    destruct Hto as [-> | ->]; [apply er_drop | apply er_esc]; auto.
  - apply er_keep, IH.
Qed.

Lemma str_replace_ctrl c to k : is_ctrl c = true -> (to = [] \/ to = esc_of c) ->
  esc_rel k (str_replace k [c] to).
Proof. intros Hc Hto. apply replace_go_ctrl; assumption. Qed.

Ltac esc_lines :=
  intros f Hf cap; simpl in Hf;
  repeat (destruct Hf as [<-|Hf];
    [ repeat first
        [ apply replace_go_ctrl; [reflexivity | first [left; reflexivity | right; reflexivity]]
        | match goal with
          | |- esc_rel ?a (replace_go _ _ _ (replace_go ?f ?p ?to ?a)) =>
              apply (esc_rel_trans _ (replace_go f p to a));
              [apply replace_go_ctrl; [reflexivity | left; reflexivity]|]
          end ]
    |]);
  destruct Hf.

Lemma escape_iteration_esc_rel x y : escape_iteration x = Some y -> esc_rel x y.
Proof.
  apply (run_passes_rel esc_rel esc_rel_refl esc_rel_trans).
  intros p Hp. simpl in Hp.
  repeat (destruct Hp as [<-|Hp];
    [intros x' y'; apply (capture_pass_rel esc_rel esc_rel_refl esc_rel_trans esc_rel_app);
       esc_lines |]).
  destruct Hp.
Qed.

Lemma esc_rel_no_ctrl a b :
  (forall c, In c a -> is_ctrl c = false) -> esc_rel a b -> b = a.
Proof.
  intros Ha H. induction H.
  - reflexivity.
  - f_equal. apply IHesc_rel. intros c' Hc'; apply Ha; right; exact Hc'.
  - rewrite (Ha c (or_introl eq_refl)) in H; discriminate.
  - rewrite (Ha c (or_introl eq_refl)) in H; discriminate.
Qed.

Lemma escape_total_esc_rel t : exists u, json_escape_ctrlchars t = Some u /\ esc_rel t u.
Proof.
  destruct (json_escape_ctrlchars t) as [u|] eqn:E.
  - exists u. split; [reflexivity|].
    revert E. apply (run_passes_rel esc_rel esc_rel_refl esc_rel_trans).
    intros p Hp; simpl in Hp; destruct Hp as [<-|[<-|[]]]; apply escape_iteration_esc_rel.
  - exfalso. revert E. apply run_passes_total.
    intros p Hp; simpl in Hp; destruct Hp as [<-|[<-|[]]]; apply escape_iteration_total.
Qed.

(** ** The unescaper only deletes escape-sequence characters and inserts
    control characters *)

Lemma edit_by_refl d i a : edit_by d i a a.
Proof. induction a; constructor; assumption. Qed.

Lemma edit_by_app d i a b c e :
  edit_by d i a b -> edit_by d i c e -> edit_by d i (a ++ c) (b ++ e).
Proof.
  induction 1; intros Hce; simpl.
  - exact Hce.
  - apply ed_keep; auto.
  - apply ed_del; auto.
  - apply ed_ins; auto.
Qed.

Lemma edit_by_del_all d i a1 a b :
  (forall y, In y a1 -> d y = true) -> edit_by d i a b -> edit_by d i (a1 ++ a) b.
Proof.
  induction a1 as [|y a1 IH]; intros Hd H; simpl; [exact H|].
  apply ed_del; [apply Hd; left; reflexivity|]. apply IH; auto.
  intros y' Hy'; apply Hd; right; exact Hy'.
Qed.

Lemma edit_by_ins_all d i to a b :
  forallb i to = true -> edit_by d i a b -> edit_by d i a (to ++ b).
Proof.
  induction to as [|c to IH]; intros Hto H; simpl in *; [exact H|].
  apply andb_prop in Hto as [Hc Hto]. apply ed_ins; auto.
Qed.

Lemma edit_by_cons_inv d i a xb :
  edit_by d i a xb -> forall x b, xb = x :: b ->
  exists a1 a2, a = a1 ++ a2 /\ (forall y, In y a1 -> d y = true) /\
    ((exists a2', a2 = x :: a2' /\ edit_by d i a2' b) \/ (i x = true /\ edit_by d i a2 b)).
Proof.
  induction 1 as [| c a b0 H _ | c a b0 Hc H IH | c a b0 Hc H _]; intros x b' E;
    try discriminate.
  - inversion E; subst. exists [], (x :: a). split; [reflexivity|]. split; [intros y []|].
    left. exists a; split; [reflexivity | exact H].
  - destruct (IH x b' E) as (a1 & a2 & -> & Hd & Hr).
    exists (c :: a1), a2. split; [reflexivity|]. split; [|exact Hr].
    intros y [<-|Hy]; [exact Hc | apply Hd, Hy].
  - inversion E; subst. exists [], a. split; [reflexivity|]. split; [intros y []|].
    right. split; assumption.
Qed.

Section EditTrans.
Variables d i : char -> bool.
Hypothesis disjoint : forall c, i c = true -> d c = false.

Lemma edit_by_trans a b c : edit_by d i a b -> edit_by d i b c -> edit_by d i a c.
Proof.
  intros H1 H2. revert a H1. induction H2 as [| x b c H2 IH | x b c Hx H2 IH | x b c Hx H2 IH];
    intros a H1.
  - exact H1.
  - destruct (edit_by_cons_inv _ _ _ _ H1 x b eq_refl) as (a1 & a2 & -> & Hd & Hr).
    apply edit_by_del_all; [exact Hd|].
    destruct Hr as [(a2' & -> & Ha2) | (Hix & Ha2)].
    + apply ed_keep, IH, Ha2.
    + apply ed_ins; [exact Hix | apply IH, Ha2].
  - destruct (edit_by_cons_inv _ _ _ _ H1 x b eq_refl) as (a1 & a2 & -> & Hd & Hr).
    apply edit_by_del_all; [exact Hd|].
    destruct Hr as [(a2' & -> & Ha2) | (Hix & Ha2)].
    + apply ed_del; [exact Hx | apply IH, Ha2].
    + rewrite (disjoint x Hix) in Hx; discriminate.
  - apply ed_ins; [exact Hx | apply IH, H1].
Qed.
End EditTrans.

Lemma ctrl_not_esc_seq c : is_ctrl c = true -> esc_seq_char c = false.
Proof.
  unfold is_ctrl. intros H.
  repeat (apply orb_prop in H as [H|H]); apply N.eqb_eq in H; subst; reflexivity.
Qed.

Lemma unesc_rel_trans a b c :
  edit_by esc_seq_char is_ctrl a b -> edit_by esc_seq_char is_ctrl b c ->
  edit_by esc_seq_char is_ctrl a c.
Proof. apply edit_by_trans, ctrl_not_esc_seq. Qed.

Lemma replace_go_unesc x to : esc_seq_char x = true -> forallb is_ctrl to = true ->
  forall f s, edit_by esc_seq_char is_ctrl s (replace_go f [c_bslash; x] to s).
Proof.
  intros Hx Hto f. induction f as [|f IH]; intros s; [apply edit_by_refl|].
  destruct s as [|y s]; cbn [replace_go]; [constructor|].
  cbn [is_prefix]. destruct (c_bslash =? y)%N eqn:E1; cbn [andb]; [|apply ed_keep, IH].
  apply N.eqb_eq in E1; subst y.
  destruct s as [|z s]; cbn [is_prefix andb]; [apply ed_keep, IH|].
  destruct (x =? z)%N eqn:E2; cbn [andb]; [|apply ed_keep, IH].
  apply N.eqb_eq in E2; subst z. cbn [skipn length].
  apply (edit_by_del_all _ _ [c_bslash; x]).
  - intros y [<-|[<-|[]]]; [reflexivity | exact Hx].
  - apply edit_by_ins_all; [exact Hto | apply IH].
Qed.

Ltac unesc_lines :=
  intros f Hf cap; simpl in Hf;
  repeat (destruct Hf as [<-|Hf]; [apply replace_go_unesc; reflexivity |]);
  destruct Hf.

Lemma unescape_iteration_rel x y :
  unescape_iteration x = Some y -> edit_by esc_seq_char is_ctrl x y.
Proof.
  apply (run_passes_rel _ (edit_by_refl _ _) unesc_rel_trans).
  intros p Hp. simpl in Hp.
  repeat (destruct Hp as [<-|Hp];
    [intros x' y'; apply (capture_pass_rel _ (edit_by_refl _ _) unesc_rel_trans
                            (edit_by_app _ _)); unesc_lines |]).
  destruct Hp.
Qed.

Lemma unescape_total_rel t :
  exists u, json_unescape_ctrlchars t = Some u /\ edit_by esc_seq_char is_ctrl t u.
Proof.
  destruct (json_unescape_ctrlchars t) as [u|] eqn:E.
  - exists u. split; [reflexivity|].
    revert E. apply (run_passes_rel _ (edit_by_refl _ _) unesc_rel_trans).
    intros p Hp; simpl in Hp; destruct Hp as [<-|[<-|[]]]; apply unescape_iteration_rel.
  - exfalso. revert E. apply run_passes_total.
    intros p Hp; simpl in Hp; destruct Hp as [<-|[<-|[]]]; apply unescape_iteration_total.
Qed.

(** ** Characters every match must consume *)

(** [needs Q r]: every match of [r] consumes a character satisfying [Q]. *)
Fixpoint needs (Q : char -> Prop) (r : regex) : Prop :=
  match r with
  | RClass p => forall x, p x = true -> Q x
  | RSeq r1 r2 => needs Q r1 \/ needs Q r2
  | RAlt r1 r2 => needs Q r1 /\ needs Q r2
  | RStar _ _ => False
  | RGroup _ r1 => needs Q r1
  end.

Lemma Matches_needs Q r pos s cs p s' cs' :
  Matches r pos s cs p s' cs' -> needs Q r ->
  exists w x, s = w ++ s' /\ In x w /\ Q x.
Proof.
  induction 1; simpl; intros Hn.
  - exists [c], c. split; [reflexivity|]. split; [left; reflexivity | apply Hn; exact H].
  - destruct (Matches_consumes _ _ _ _ _ _ _ H) as (w1 & -> & _).
    destruct (Matches_consumes _ _ _ _ _ _ _ H0) as (w2 & -> & _).
    destruct Hn as [Hn|Hn].
    + destruct (IHMatches1 Hn) as (w & x & Hw & Hx & HQ).
      apply app_inv_tail in Hw; subst w.
      exists (w1 ++ w2), x. rewrite app_assoc. split; [reflexivity|].
      split; [apply in_or_app; left; exact Hx | exact HQ].
    + destruct (IHMatches2 Hn) as (w & x & Hw & Hx & HQ).
      apply app_inv_tail in Hw; subst w.
      exists (w1 ++ w2), x. rewrite app_assoc. split; [reflexivity|].
      split; [apply in_or_app; right; exact Hx | exact HQ].
  - apply IHMatches, Hn.
  - apply IHMatches, Hn.
  - destruct Hn.
  - destruct Hn.
  - apply IHMatches, Hn.
Qed.

Lemma no_match_needs Q r t :
  needs Q r -> (forall x, In x t -> ~ Q x) ->
  forall st e cs, Matches r st (skipn st t) [] e (skipn e t) cs -> False.
Proof.
  intros Hn Ht st e cs HM.
  destruct (Matches_needs _ _ _ _ _ _ _ _ HM Hn) as (w & x & Hw & Hx & HQ).
  apply (Ht x); [|exact HQ].
  apply (In_skipn x t st). rewrite Hw. apply in_or_app; left; exact Hx.
Qed.

Lemma capture_pass_no_match r g lines json :
  (forall st e cs, Matches r st (skipn st json) [] e (skipn e json) cs -> False) ->
  capture_pass r g lines json = Some json.
Proof. intros Hn. unfold capture_pass. rewrite captures_iter_nil by exact Hn. reflexivity. Qed.

Lemma needs_char (Q : char -> Prop) c : Q c -> needs Q (RChar c).
Proof. intros Hc x Hx. apply N.eqb_eq in Hx; subst; exact Hc. Qed.

Lemma needs_seq_l Q r1 r2 : needs Q r1 -> needs Q (r1 @@ r2).
Proof. intros H; left; exact H. Qed.

Lemma needs_seq_r Q r1 r2 : needs Q r2 -> needs Q (r1 @@ r2).
Proof. intros H; right; exact H. Qed.

Lemma needs_group Q n r : needs Q r -> needs Q (RGroup n r).
Proof. intros H; exact H. Qed.

Ltac needs_solve :=
  match goal with
  | |- needs _ (RChar _) => apply needs_char; reflexivity
  | |- needs _ (RSeq _ _) =>
      first [apply needs_seq_l; needs_solve | apply needs_seq_r; needs_solve]
  | |- needs _ (RGroup _ _) => apply needs_group; needs_solve
  end.

Ltac unfold_patterns :=
  unfold add_string_val_regex, add_object_val_regex, add_number_val_regex,
    add_null_bools_val_regex, remove_quotes_regex, esc_string_key_regex,
    esc_object_key_regex, esc_number_key_regex, esc_null_boolean_key_regex,
    string_value_regex, unesc_string_key_regex, unesc_object_key_regex,
    unesc_number_key_regex, unesc_null_boolean_key_regex, colon, quoted_lazy, key_pat.

(** Every pass of a list of passes needs a character absent from the text. *)
Ltac passes_fixed Q Ht :=
  apply run_passes_same; intros p Hp; simpl in Hp;
  repeat (destruct Hp as [<-|Hp];
    [apply capture_pass_no_match;
     apply (no_match_needs Q); [unfold_patterns; needs_solve | exact Ht] |]);
  destruct Hp.

Ltac replace_all_fixed Q t Ht :=
  repeat rewrite (replace_all_no_match _ t)
    by (apply (no_match_needs Q); [unfold_patterns; needs_solve | exact Ht]).

Lemma escape_fixed_colon t :
  (forall x, In x t -> ~ x = c_colon) -> json_escape_ctrlchars t = Some t.
Proof.
  intros Ht. unfold json_escape_ctrlchars. apply run_passes_same.
  intros p' Hp'; destruct Hp' as [<-|[<-|[]]]; unfold escape_iteration;
    passes_fixed (fun x => x = c_colon) Ht.
Qed.

Lemma unescape_fixed_colon t :
  (forall x, In x t -> ~ x = c_colon) -> json_unescape_ctrlchars t = Some t.
Proof.
  intros Ht. unfold json_unescape_ctrlchars. apply run_passes_same.
  intros p' Hp'; destruct Hp' as [<-|[<-|[]]]; unfold unescape_iteration;
    passes_fixed (fun x => x = c_colon) Ht.
Qed.

Lemma add_fixed_colon t q :
  (forall x, In x t -> ~ x = c_colon) -> json_add_key_quotes t q = t.
Proof.
  intros Ht. unfold json_add_key_quotes. replace_all_fixed (fun x => x = c_colon) t Ht.
  reflexivity.
Qed.

Lemma remove_fixed_colon t :
  (forall x, In x t -> ~ x = c_colon) -> json_remove_key_quotes t = t.
Proof.
  intros Ht. unfold json_remove_key_quotes. replace_all_fixed (fun x => x = c_colon) t Ht.
  reflexivity.
Qed.

Lemma escape_fixed_quote t :
  (forall x, In x t -> ~ is_quote x = true) -> json_escape_ctrlchars t = Some t.
Proof.
  intros Ht. unfold json_escape_ctrlchars. apply run_passes_same.
  intros p' Hp'; destruct Hp' as [<-|[<-|[]]]; unfold escape_iteration;
    passes_fixed (fun x => is_quote x = true) Ht.
Qed.

Lemma remove_fixed_quote t :
  (forall x, In x t -> ~ is_quote x = true) -> json_remove_key_quotes t = t.
Proof.
  intros Ht. unfold json_remove_key_quotes.
  replace_all_fixed (fun x => is_quote x = true) t Ht.
  reflexivity.
Qed.

Lemma unescape_iteration_no_bs j :
  (forall c, In c j -> c <> c_bslash) -> unescape_iteration j = Some j.
Proof.
  intros Hj. unfold unescape_iteration. apply run_passes_same.
  intros p Hp. simpl in Hp.
  repeat (destruct Hp as [<-|Hp];
    [apply capture_pass_same; [reflexivity|];
     intros cap Hcap; repeat constructor; unfold bs_r, bs_n, bs_t;
     rewrite (str_replace_absent _ _ _ cap) by (intros Hin; exact (Hj _ (Hcap _ Hin) eq_refl));
     reflexivity |]).
  destruct Hp.
Qed.

Lemma mem_write_read w p s w' : mem_write w p s = (w', Ok tt) -> mem_read w' p = Ok s.
Proof. intros H. inversion H; subst. unfold mem_read. rewrite Nat.eqb_refl. reflexivity. Qed.

Lemma app_single_neq {A : Type} (l : list A) x : l ++ [x] <> l.
Proof. intros H. apply (f_equal (@List.length A)) in H. rewrite length_app in H. simpl in H. lia. Qed.

(** ** Extra properties *)

(** X1: json_escape_ctrlchars always returns, and its result is the input
    with some CR, LF and TAB characters deleted and some replaced by their
    escape sequences; every other character is kept, in order. *)
Theorem X1_escape_only_ctrl (t : text) :
  exists u, json_escape_ctrlchars t = Some u /\ esc_rel t u.
Proof. apply escape_total_esc_rel. Qed.

(** X2: a text without CR, LF and TAB is returned unchanged by
    json_escape_ctrlchars (existing backslash sequences included). *)
Theorem X2_escape_no_ctrl_unchanged (t : text)
  (H : forallb (fun c => negb (is_ctrl c)) t = true) :
  json_escape_ctrlchars t = Some t.
Proof.
  destruct (escape_total_esc_rel t) as (u & Hu & Hr).
  rewrite Hu. f_equal. apply (esc_rel_no_ctrl t u); [|exact Hr].
  intros c Hc. rewrite forallb_forall in H. specialize (H c Hc).
  destruct (is_ctrl c); [discriminate | reflexivity].
Qed.

Lemma X2_witness :
  json_escape_ctrlchars (lit "{@a@: @x\ny\t@}") = Some (lit "{@a@: @x\ny\t@}").
Proof. apply X2_escape_no_ctrl_unchanged. reflexivity. Defined.

(** X3: json_unescape_ctrlchars always returns, and its result is the
    input with some backslashes and letters r, n, t deleted and some CR, LF
    and TAB characters inserted; every other character is kept, in order. *)
Theorem X3_unescape_only_escapes (t : text) :
  exists u, json_unescape_ctrlchars t = Some u /\ edit_by esc_seq_char is_ctrl t u.
Proof. apply unescape_total_rel. Qed.

(** X4: a text without backslash is returned unchanged by
    json_unescape_ctrlchars. *)
Theorem X4_unescape_no_backslash_unchanged (t : text)
  (H : forallb (fun c => negb (c =? c_bslash)%N) t = true) :
  json_unescape_ctrlchars t = Some t.
Proof.
  assert (Hj : forall c, In c t -> c <> c_bslash).
  { intros c Hc ->. rewrite forallb_forall in H. specialize (H _ Hc). discriminate. }
  unfold json_unescape_ctrlchars. apply run_passes_same.
  intros p Hp; destruct Hp as [<-|[<-|[]]]; apply unescape_iteration_no_bs; exact Hj.
Qed.

Lemma X4_witness :
  json_unescape_ctrlchars (lit "{key: @va#l@}") = Some (lit "{key: @va#l@}").
Proof. apply X4_unescape_no_backslash_unchanged. reflexivity. Defined.

(** X5: every pattern of the four core functions needs a colon: a text
    without [:] is returned unchanged by each of them. *)
Theorem X5_no_colon_unchanged (t : text) (q : Quotes)
  (H : forallb (fun c => negb (c =? c_colon)%N) t = true) :
  json_add_key_quotes t q = t /\ json_remove_key_quotes t = t
  /\ json_escape_ctrlchars t = Some t /\ json_unescape_ctrlchars t = Some t.
Proof.
  assert (Ht : forall x, In x t -> ~ x = c_colon).
  { intros x Hx ->. rewrite forallb_forall in H. specialize (H _ Hx). discriminate. }
  repeat split.
  - apply add_fixed_colon, Ht.
  - apply remove_fixed_colon, Ht.
  - apply escape_fixed_colon, Ht.
  - apply unescape_fixed_colon, Ht.
Qed.

Lemma X5_witness :
  json_add_key_quotes (lit "[1, {}, @a#b\n@]") SingleQuote = lit "[1, {}, @a#b\n@]"
  /\ json_remove_key_quotes (lit "[1, {}, @a#b\n@]") = lit "[1, {}, @a#b\n@]"
  /\ json_escape_ctrlchars (lit "[1, {}, @a#b\n@]") = Some (lit "[1, {}, @a#b\n@]")
  /\ json_unescape_ctrlchars (lit "[1, {}, @a#b\n@]") = Some (lit "[1, {}, @a#b\n@]").
Proof. apply X5_no_colon_unchanged. reflexivity. Defined.

(** X6: json_remove_key_quotes and json_escape_ctrlchars only act on
    quoted text: a text without quote characters is returned unchanged by
    both (raw control characters in it stay raw). *)
Theorem X6_no_quote_unchanged (t : text)
  (H : forallb (fun c => negb (is_quote c)) t = true) :
  json_remove_key_quotes t = t /\ json_escape_ctrlchars t = Some t.
Proof.
  assert (Ht : forall x, In x t -> ~ is_quote x = true).
  { intros x Hx Hq. rewrite forallb_forall in H. specialize (H _ Hx).
    rewrite Hq in H. discriminate. }
  split; [apply remove_fixed_quote, Ht | apply escape_fixed_quote, Ht].
Qed.

Lemma X6_witness :
  json_remove_key_quotes (lit "{a: {b#c: 1}}") = lit "{a: {b#c: 1}}"
  /\ json_escape_ctrlchars (lit "{a: {b#c: 1}}") = Some (lit "{a: {b#c: 1}}").
Proof. apply X6_no_quote_unchanged. reflexivity. Defined.

(** X7: json_convert_with_to_without_keyquotes panics only when printing an
    error to stderr fails.  When the file cannot be read it leaves the
    world as it is and prints the read error; otherwise it writes
    json_unescape_ctrlchars (json_remove_key_quotes v), for the content [v]
    read, to the same path, once, and prints the write error if there is
    one. *)
Theorem X7_convert_with_to_without_effect {W P E : Type}
    (rd : W -> P -> result text E) (wr : W -> P -> text -> W * result unit E)
    (ok : W -> bool) (w : W) (errs : list E) (p : P) :
  match rd w p with
  | Err e =>
      json_convert_with_to_without_keyquotes rd wr ok w errs p
      = if ok w then Some (w, errs ++ [e]) else None
  | Ok v =>
      exists u, json_unescape_ctrlchars (json_remove_key_quotes v) = Some u /\
      json_convert_with_to_without_keyquotes rd wr ok w errs p =
        match wr w p u with
        | (w', Ok _) => Some (w', errs)
        | (w', Err e) => if ok w' then Some (w', errs ++ [e]) else None
        end
  end.
Proof.
  unfold json_convert_with_to_without_keyquotes, load_json, eprintln.
  destruct (rd w p) as [v|e]; [|destruct (ok w); reflexivity].
  destruct (unescape_total_rel (json_remove_key_quotes v)) as (u & Hu & _).
  exists u. split; [exact Hu|]. rewrite Hu. simpl.
  unfold write_json. destruct (wr w p u) as [w' [[]|e]]; [reflexivity|].
  destruct (ok w'); reflexivity.
Qed.

(** X8: json_convert_without_to_with_keyquotes panics only when printing an
    error to stderr fails.  When the file cannot be read it leaves the
    world as it is and prints the read error; otherwise it writes
    json_escape_ctrlchars (json_add_key_quotes v q), for the content [v]
    read, to the same path, once, and prints the write error if there is
    one. *)
Theorem X8_convert_without_to_with_effect {W P E : Type}
    (rd : W -> P -> result text E) (wr : W -> P -> text -> W * result unit E)
    (ok : W -> bool) (w : W) (errs : list E) (p : P) (q : Quotes) :
  match rd w p with
  | Err e =>
      json_convert_without_to_with_keyquotes rd wr ok w errs p q
      = if ok w then Some (w, errs ++ [e]) else None
  | Ok v =>
      exists u, json_escape_ctrlchars (json_add_key_quotes v q) = Some u /\
      json_convert_without_to_with_keyquotes rd wr ok w errs p q =
        match wr w p u with
        | (w', Ok _) => Some (w', errs)
        | (w', Err e) => if ok w' then Some (w', errs ++ [e]) else None
        end
  end.
Proof.
  unfold json_convert_without_to_with_keyquotes, load_json, eprintln.
  destruct (rd w p) as [v|e]; [|destruct (ok w); reflexivity].
  destruct (escape_total_esc_rel (json_add_key_quotes v q)) as (u & Hu & _).
  exists u. split; [exact Hu|]. rewrite Hu. simpl.
  unfold write_json. destruct (wr w p u) as [w' [[]|e]]; [reflexivity|].
  destruct (ok w'); reflexivity.
Qed.

(** X9: on a file system where a successful write is read back, a call of
    json_convert_with_to_without_keyquotes that prints no error leaves the
    file holding json_unescape_ctrlchars (json_remove_key_quotes v), where
    [v] is its previous content. *)
Theorem X9_convert_with_to_without_file {W P E : Type}
    (rd : W -> P -> result text E) (wr : W -> P -> text -> W * result unit E)
    (ok : W -> bool)
    (Hrw : forall w p s w', wr w p s = (w', Ok tt) -> rd w' p = Ok s)
    (w w' : W) (errs : list E) (p : P) (v : text)
    (Hread : rd w p = Ok v)
    (Hrun : json_convert_with_to_without_keyquotes rd wr ok w errs p = Some (w', errs)) :
  exists u, json_unescape_ctrlchars (json_remove_key_quotes v) = Some u /\ rd w' p = Ok u.
Proof.
  unfold json_convert_with_to_without_keyquotes, load_json in Hrun. rewrite Hread in Hrun.
  destruct (json_unescape_ctrlchars (json_remove_key_quotes v)) as [u|]; [|discriminate].
  exists u. split; [reflexivity|]. simpl in Hrun. unfold write_json in Hrun.
  unfold eprintln in Hrun.
  destruct (wr w p u) as [w'' [[]|e]] eqn:Ew.
  - inversion Hrun; subst. apply (Hrw w p u _ Ew).
  - exfalso. destruct (ok w''); inversion Hrun.
    apply (app_single_neq errs e). assumption.
Qed.

Lemma X9_witness :
  exists u, json_unescape_ctrlchars (json_remove_key_quotes (lit "{@a@: @x\ny@}")) = Some u
  /\ mem_read (fst (mem_write (fun _ => Some (lit "{@a@: @x\ny@}")) 0 (lit "{a: @x#y@}"))) 0
     = Ok u.
Proof.
  apply (X9_convert_with_to_without_file mem_read mem_write (fun _ => true) mem_write_read
           (fun _ => Some (lit "{@a@: @x\ny@}"))
           (fst (mem_write (fun _ => Some (lit "{@a@: @x\ny@}")) 0 (lit "{a: @x#y@}")))
           [] 0 (lit "{@a@: @x\ny@}")).
  - reflexivity.
  - vm_compute. reflexivity.
Defined.

(** X10: on a file system where a successful write is read back, a call of
    json_convert_without_to_with_keyquotes that prints no error leaves the
    file holding json_escape_ctrlchars (json_add_key_quotes v q), where [v]
    is its previous content. *)
Theorem X10_convert_without_to_with_file {W P E : Type}
    (rd : W -> P -> result text E) (wr : W -> P -> text -> W * result unit E)
    (ok : W -> bool)
    (Hrw : forall w p s w', wr w p s = (w', Ok tt) -> rd w' p = Ok s)
    (w w' : W) (errs : list E) (p : P) (q : Quotes) (v : text)
    (Hread : rd w p = Ok v)
    (Hrun : json_convert_without_to_with_keyquotes rd wr ok w errs p q = Some (w', errs)) :
  exists u, json_escape_ctrlchars (json_add_key_quotes v q) = Some u /\ rd w' p = Ok u.
Proof.
  unfold json_convert_without_to_with_keyquotes, load_json in Hrun. rewrite Hread in Hrun.
  destruct (json_escape_ctrlchars (json_add_key_quotes v q)) as [u|]; [|discriminate].
  exists u. split; [reflexivity|]. simpl in Hrun. unfold write_json in Hrun.
  unfold eprintln in Hrun.
  destruct (wr w p u) as [w'' [[]|e]] eqn:Ew.
  - inversion Hrun; subst. apply (Hrw w p u _ Ew).
  - exfalso. destruct (ok w''); inversion Hrun.
    apply (app_single_neq errs e). assumption.
Qed.

Lemma X10_witness :
  exists u, json_escape_ctrlchars (json_add_key_quotes (lit "{a: @x#y@}") DoubleQuote) = Some u
  /\ mem_read (fst (mem_write (fun _ => Some (lit "{a: @x#y@}")) 0 (lit "{@a@: @x\ny@}"))) 0
     = Ok u.
Proof.
  apply (X10_convert_without_to_with_file mem_read mem_write (fun _ => true) mem_write_read
           (fun _ => Some (lit "{a: @x#y@}"))
           (fst (mem_write (fun _ => Some (lit "{a: @x#y@}")) 0 (lit "{@a@: @x\ny@}")))
           [] 0 DoubleQuote (lit "{a: @x#y@}")).
  - reflexivity.
  - vm_compute. reflexivity.
Defined.

(** ** Quotes around keys: where the passes insert and delete them *)

Lemma unquote_keys_refl q a : unquote_keys q a a.
Proof. induction a; constructor; assumption. Qed.

Lemma unquote_keys_app q a b c d :
  unquote_keys q a b -> unquote_keys q c d -> unquote_keys q (a ++ c) (b ++ d).
Proof.
  induction 1; intros Hcd; simpl.
  - exact Hcd.
  - apply uk_keep; auto.
  - repeat (rewrite <- app_assoc || rewrite <- app_comm_cons).
    apply uk_strip; auto.
Qed.



Lemma Matches_seq_split r1 r2 pos w s' cs p cs' :
  Matches (r1 @@ r2) pos (w ++ s') cs p s' cs' ->
  exists w1 w2 p1 c1, w = w1 ++ w2 /\
    Matches r1 pos (w1 ++ w2 ++ s') cs p1 (w2 ++ s') c1 /\
    Matches r2 p1 (w2 ++ s') c1 p s' cs'.
Proof.
  intros H. inversion H; subst; clear H.
  match goal with H2 : Matches r2 _ _ _ _ _ _ |- _ =>
    destruct (Matches_consumes _ _ _ _ _ _ _ H2) as (w2 & -> & _) end.
  match goal with H1 : Matches r1 _ _ _ _ _ _ |- _ =>
    destruct (Matches_consumes _ _ _ _ _ _ _ H1) as (w1 & E & _) end.
  rewrite app_assoc in E. apply app_inv_tail in E. subst w.
  do 4 eexists. split; [reflexivity|]. rewrite <- app_assoc in *. split; eassumption.
Qed.

Lemma Matches_class_word p pos w s' cs q cs' :
  Matches (RClass p) pos (w ++ s') cs q s' cs' -> exists c, w = [c] /\ p c = true.
Proof.
  intros H. inversion H; subst.
  match goal with E : _ :: _ = w ++ _ |- _ =>
    change (c :: s') with ([c] ++ s') in E; apply app_inv_tail in E; subst end.
  eauto.
Qed.

Lemma Matches_group_inv n r pos s cs p s' cs' :
  Matches (RGroup n r) pos s cs p s' cs' ->
  exists c1, Matches r pos s cs p s' c1 /\ cs' = (n, (pos, p)) :: c1.
Proof. intros H. inversion H; subst. eauto. Qed.

Lemma Matches_star_class g p pos s cs q s' cs' :
  Matches (RStar g (RClass p)) pos s cs q s' cs' ->
  exists w, s = w ++ s' /\ forallb p w = true.
Proof.
  intros H. remember (RStar g (RClass p)) as r eqn:Er.
  induction H; inversion Er; subst.
  - exists []. auto.
  - destruct (IHMatches2 eq_refl) as (w & -> & Hw).
    inversion H; subst.
    exists (c :: w). simpl.
    match goal with E : p c = true |- _ => rewrite E end. auto.
Qed.

Lemma Matches_star_class_word g p pos w s' cs q cs' :
  Matches (RStar g (RClass p)) pos (w ++ s') cs q s' cs' -> forallb p w = true.
Proof.
  intros H. destruct (Matches_star_class _ _ _ _ _ _ _ _ H) as (w' & E & Hw).
  apply app_inv_tail in E. subst. exact Hw.
Qed.

Definition word_of (r : regex) (w : text) : Prop :=
  exists pos rest cs p cs', Matches r pos (w ++ rest) cs p rest cs'.

Lemma word_of_intro r pos w rest cs p cs' :
  Matches r pos (w ++ rest) cs p rest cs' -> word_of r w.
Proof. intros H. exists pos, rest, cs, p, cs'. exact H. Qed.

Lemma word_of_seq r1 r2 w :
  word_of (r1 @@ r2) w -> exists w1 w2, w = w1 ++ w2 /\ word_of r1 w1 /\ word_of r2 w2.
Proof.
  intros (pos & rest & cs & p & cs' & H).
  destruct (Matches_seq_split _ _ _ _ _ _ _ _ H) as (w1 & w2 & p1 & c1 & -> & H1 & H2).
  exists w1, w2. split; [reflexivity|]. split; eapply word_of_intro; eassumption.
Qed.

Lemma word_of_class p w : word_of (RClass p) w -> exists c, w = [c] /\ p c = true.
Proof. intros (pos & rest & cs & q & cs' & H). eapply Matches_class_word; exact H. Qed.

Lemma word_of_star_class g p w : word_of (RStar g (RClass p)) w -> forallb p w = true.
Proof. intros (pos & rest & cs & q & cs' & H). eapply Matches_star_class_word; exact H. Qed.



Lemma word_of_delim_ws w :
  word_of (RClass open_delim @@ ws_greedy) w ->
  exists d ws, w = d :: ws /\ open_delim d = true /\ forallb is_space ws = true.
Proof.
  intros H. destruct (word_of_seq _ _ _ H) as (w1 & ws & -> & H1 & H2).
  destruct (word_of_class _ _ H1) as (d & -> & Hd).
  exists d, ws. repeat split; [assumption|]. exact (word_of_star_class _ _ _ H2).
Qed.

Lemma word_of_ws_colon w :
  word_of (ws_lazy @@ colon) w ->
  exists ws, w = ws ++ [c_colon] /\ forallb is_space ws = true.
Proof.
  intros H. destruct (word_of_seq _ _ _ H) as (ws & w2 & -> & H1 & H2).
  destruct (word_of_class _ _ H2) as (c & -> & Hc). apply N.eqb_eq in Hc. subst.
  exists ws. split; [reflexivity|]. exact (word_of_star_class _ _ _ H1).
Qed.



Lemma Matches_quoted_middle_words A B C q pos s p s' cs :
  no_groups A = true -> no_groups B = true -> no_groups C = true ->
  Matches (RGroup 1 A @@ RChar q @@ RGroup 2 B @@ RChar q @@ RGroup 3 C) pos s [] p s' cs ->
  exists w1 w2 w3,
    s = w1 ++ [q] ++ w2 ++ [q] ++ w3 ++ s' /\
    cs = [(3, (S (S (pos + length w1 + length w2)), p));
          (2, (S (pos + length w1), S (pos + length w1 + length w2)));
          (1, (pos, pos + length w1))] /\
    p = S (S (pos + length w1 + length w2 + length w3)) /\
    word_of A w1 /\ word_of B w2 /\ word_of C w3.
Proof.
  intros HA HB HC H.
  inversion H; subst; clear H.
  match goal with H : Matches (RGroup 1 A) _ _ _ _ _ _ |- _ => inversion H; subst; clear H end.
  match goal with H : Matches (RSeq (RChar q) _) _ _ _ _ _ _ |- _ => inversion H; subst; clear H end.
  match goal with H : Matches (RChar q) _ _ _ _ _ _ |- _ =>
    destruct (Matches_char _ _ _ _ _ _ _ H) as (-> & -> & ->); clear H end.
  match goal with H : Matches (RSeq (RGroup 2 B) _) _ _ _ _ _ _ |- _ => inversion H; subst; clear H end.
  match goal with H : Matches (RGroup 2 B) _ _ _ _ _ _ |- _ => inversion H; subst; clear H end.
  match goal with H : Matches (RSeq (RChar q) _) _ _ _ _ _ _ |- _ => inversion H; subst; clear H end.
  match goal with H : Matches (RChar q) _ _ _ _ _ _ |- _ =>
    destruct (Matches_char _ _ _ _ _ _ _ H) as (-> & -> & ->); clear H end.
  match goal with H : Matches (RGroup 3 C) _ _ _ _ _ _ |- _ => inversion H; subst; clear H end.
  caps_fixed.
  match goal with
  | MA : Matches A _ _ _ _ _ _, MB : Matches B _ _ _ _ _ _, MC : Matches C _ _ _ _ _ _ |- _ =>
      consumed MC w3; consumed MB w2; consumed MA w1;
      exists w1, w2, w3; repeat split; try reflexivity; try lia;
      eapply word_of_intro; eassumption
  end.
Qed.



(** The text of one match of the removal pattern, and its replacement. *)
Lemma remove_text qc t st e cs :
  Matches (remove_quotes_regex qc) st (skipn st t) [] e (skipn e t) cs ->
  exists w1 w2 w3,
    slice t st e = w1 ++ [qc] ++ w2 ++ [qc] ++ w3 /\
    expand t cs tmpl_unquote = w1 ++ w2 ++ w3 /\
    word_of (RClass open_delim @@ ws_greedy) w1 /\ word_of key_chars_lazy w2 /\
    word_of (ws_lazy @@ colon) w3.
Proof.
  intros HM.
  destruct (Matches_quoted_middle_words (RClass open_delim @@ ws_greedy) key_chars_lazy
              (ws_lazy @@ colon) qc st _ e _ cs eq_refl eq_refl eq_refl HM)
    as (w1 & w2 & w3 & Hs & -> & -> & HwA & HwB & HwC).
  set (rest := skipn (S (S (st + length w1 + length w2 + length w3))) t) in *.
  pose proof (skipn_shift t w1 _ st Hs) as Hq1.
  pose proof (skipn_succ_cons t _ _ _ Hq1) as Hs2.
  pose proof (skipn_shift t w2 _ _ Hs2) as Hq2.
  pose proof (skipn_succ_cons t _ _ _ Hq2) as Hs3.
  exists w1, w2, w3. split; [|split; [|repeat split; assumption]].
  - replace (S (S (st + length w1 + length w2 + length w3)))
      with (st + length (w1 ++ [qc] ++ w2 ++ [qc] ++ w3))
      by (rewrite !length_app; simpl; lia).
    apply (slice_prefix t (w1 ++ [qc] ++ w2 ++ [qc] ++ w3) rest st).
    rewrite <- !app_assoc; exact Hs.
  - unfold expand, tmpl_unquote; cbn [flat_map].
    rewrite (group_text_at t st _ w1 _ _ 1 Hs) by reflexivity.
    rewrite (group_text_at t _ _ w2 _ _ 2 Hs2) by first [reflexivity | simpl; lia].
    rewrite (group_text_at t _ _ w3 _ _ 3 Hs3) by first [reflexivity | simpl; lia].
    rewrite app_nil_r. reflexivity.
Qed.

Lemma remove_pass_unquote qc t :
  unquote_keys qc t (replace_all (remove_quotes_regex qc) t tmpl_unquote).
Proof.
  apply replace_all_rel; [apply unquote_keys_refl | apply unquote_keys_app |].
  intros st e cs HM.
  destruct (remove_text qc t st e cs HM) as (w1 & w2 & w3 & -> & -> & H1 & H2 & H3).
  destruct (word_of_delim_ws _ H1) as (d & ws & -> & Hd & Hws).
  destruct (word_of_ws_colon _ H3) as (ws' & -> & Hws').
  pose proof (word_of_star_class _ _ _ H2) as Hk.
  pose proof (uk_strip qc d ws w2 ws' [] [] Hd Hws Hk Hws' (uk_nil qc)) as U.
  simpl. exact U.
Qed.

Lemma remove_unquote_keys t :
  exists m, unquote_keys c_sq t m /\ unquote_keys c_dq m (json_remove_key_quotes t).
Proof.
  eexists. split; [apply remove_pass_unquote | apply remove_pass_unquote].
Qed.





Lemma ws_then_quote_app ws q r :
  forallb is_space ws = true -> is_quote q = true -> ws_then_quote (ws ++ q :: r) = true.
Proof.
  intros Hws Hq. induction ws as [|c ws IH]; simpl in *.
  - rewrite Hq. reflexivity.
  - apply andb_prop in Hws as [Hc Hws]. rewrite Hc, IH by assumption.
    apply orb_true_r.
Qed.

Lemma unquote_keys_no_delim q t m :
  unquote_keys q t m -> is_quote q = true -> quote_after_delim t = false -> m = t.
Proof.
  induction 1; intros Hq Ht; simpl in Ht.
  - reflexivity.
  - apply orb_false_elim in Ht as [_ Ht]. f_equal. auto.
  - exfalso. rewrite H, ws_then_quote_app in Ht by assumption. discriminate.
Qed.

(** ** The control-character round trip on one-pair documents *)



















































Lemma not_existsb_In k v : existsb (N.eqb k) v = false -> ~ In k v.
Proof.
  intros H Hin. assert (E : existsb (N.eqb k) v = true).
  { apply existsb_exists. exists k. split; [exact Hin | apply N.eqb_refl]. }
  congruence.
Qed.







































(** C9, amended: json_remove_key_quotes strips quotes only from keys
    preceded, up to white space, by one of [{], [[] and [,] (first the
    single-quoted ones, then the double-quoted ones, as unquote_keys
    describes); so a text in which no quote follows such a delimiter, up
    to white space, is returned unchanged. *)
Theorem C9_strips_only_delimited_keys (t : text) :
  (exists m, unquote_keys c_sq t m /\ unquote_keys c_dq m (json_remove_key_quotes t)) /\
  (quote_after_delim t = false -> json_remove_key_quotes t = t).
Proof.
  destruct (remove_unquote_keys t) as (m & H1 & H2).
  split; [exists m; split; assumption|].
  intros Ht.
  pose proof (unquote_keys_no_delim _ _ _ H1 eq_refl Ht) as ->.
  exact (unquote_keys_no_delim _ _ _ H2 eq_refl Ht).
Qed.

Lemma C9_witness :
  quote_after_delim (lit "@key@: {a: @x@, b: 'y'}") = false /\
  json_remove_key_quotes (lit "@key@: {a: @x@, b: 'y'}") = lit "@key@: {a: @x@, b: 'y'}".
Proof.
  split; [reflexivity|].
  apply (proj2 (C9_strips_only_delimited_keys (lit "@key@: {a: @x@, b: 'y'}"))).
  reflexivity.
Defined.
